(** * Ultrahand-Overlay: download and extraction core

    A shallow embedding of [source/download_funcs.hpp] (with the log sink of
    [lib/libultra/debug_funcs.hpp]) and the properties of its natural-language
    specification.

    - [std::string] is [list ascii]; [std::string::npos] is [None].
    - The file system, the open [FILE] streams and the three process-wide
      atomics ([abortDownload], [abortUnzip], [downloadPercentage]) live in a
      [World] that every operation threads explicitly.
    - The [while] loops whose recursion is not structural are defined by
      well-founded recursion on what they have left to do.
    - What the code does not control (the HTTP transport, the archive, the
      other execution context that requests an abort, the C library's answers)
      is an [Env].
    - [double] is IEEE-754 binary64, through [SpecFloat] of the standard
      library. *)

From Stdlib Require Import SpecFloat ZArith Ascii String Lia.
From stdpp Require Import gmap strings list fin_maps.
From Equations Require Import Equations.

Local Open Scope Z_scope.

(** ** Strings *)

Module Str.

Abbreviation str := (list ascii).

(** A string literal of the source. *)
Definition lit (s : string) : str := list_ascii_of_string s.
Arguments lit s%_string.

Definition colon : ascii := ":"%char.
Definition space : ascii := " "%char.
Definition slash : ascii := "/"%char.
Definition nul : ascii := "000"%char.

(** Index of the first occurrence of [c] in [s]. *)
Fixpoint index_of (c : ascii) (s : str) : option nat :=
  match s with
  | [] => None
  | x :: r => if Ascii.eqb x c then Some 0%nat else S <$> index_of c r
  end.

(** [s.find(c, pos)] *)
Definition find_char (s : str) (c : ascii) (pos : nat) : option nat :=
  (λ i, (pos + i)%nat) <$> index_of c (drop pos s).

(** Does [s] start with [pat]? *)
Fixpoint starts_with (pat s : str) : bool :=
  match pat, s with
  | [], _ => true
  | _ :: _, [] => false
  | p :: pat', x :: s' => Ascii.eqb x p && starts_with pat' s'
  end.

(** Index of the first occurrence of the substring [pat] in [s]. *)
Fixpoint index_of_sub (pat s : str) : option nat :=
  if starts_with pat s then Some 0%nat
  else match s with
       | [] => None
       | _ :: r => S <$> index_of_sub pat r
       end.

(** [s.find(pat, pos)] *)
Definition find_str (s pat : str) (pos : nat) : option nat :=
  if decide (pos ≤ length s)%nat
  then (λ i, (pos + i)%nat) <$> index_of_sub pat (drop pos s)
  else None.

(** Index of the first character of [s] that occurs in [set]. *)
Fixpoint index_first_of (set : str) (s : str) : option nat :=
  match s with
  | [] => None
  | x :: r => if existsb (Ascii.eqb x) set then Some 0%nat
              else S <$> index_first_of set r
  end.

(** [s.find_first_of(set)] *)
Definition find_first_of (s set : str) : option nat := index_first_of set s.

(** [s.find_last_of(c)] *)
Fixpoint find_last_of (s : str) (c : ascii) : option nat :=
  match s with
  | [] => None
  | x :: r => match find_last_of r c with
              | Some i => Some (S i)
              | None => if Ascii.eqb x c then Some 0%nat else None
              end
  end.

(** [s.substr(0, n)], where [n] may be [npos]. *)
Definition substr_to (s : str) (n : option nat) : str :=
  match n with
  | Some n => take n s
  | None => s
  end.

(** [s.substr(pos)] for [pos <= s.size()]. *)
Definition substr_from (s : str) (pos : nat) : str := drop pos s.

(** [s.back()]: the last character; reading it from an empty string is
    undefined, here [None]. *)
Definition back (s : str) : option ascii := last s.

(** [s[pos] = c] *)
Definition set_at (s : str) (pos : nat) (c : ascii) : str := <[pos := c]> s.

(** [s.replace(pos, len, r)] for [pos <= s.size()]. *)
Definition replace (s : str) (pos len : nat) (r : str) : str :=
  take pos s ++ r ++ drop (pos + len) s.

(** [std::string(p)] for a C string [p]: the characters before the first
    NUL. *)
Fixpoint c_str (s : str) : str :=
  match s with
  | [] => []
  | x :: r => if Ascii.eqb x nul then [] else x :: c_str r
  end.

End Str.
Import Str.


(** ** Path sanitization of the archive extractor *)

Module Sanitize.

Lemma index_of_lt c s i : index_of c s = Some i → (i < length s)%nat.
Proof.
  revert i. induction s as [|x r IH]; intros i; simpl; [done|].
  destruct (Ascii.eqb x c).
  - intros [= <-]. lia.
  - destruct (index_of c r) as [j|]; simpl; [|done].
    intros [= <-]. specialize (IH j eq_refl). lia.
Qed.

Lemma find_char_bounds s c pos i :
  find_char s c pos = Some i → (pos ≤ i < length s)%nat.
Proof.
  unfold find_char. destruct (index_of c (drop pos s)) as [j|] eqn:E; simpl; [|done].
  intros [= <-]. apply index_of_lt in E. rewrite length_drop in E. lia.
Qed.

Lemma starts_with_length pat s : starts_with pat s = true → (length pat ≤ length s)%nat.
Proof.
  revert s. induction pat as [|p pat IH]; intros [|x s]; simpl; try done; try lia.
  intros [_ H]%andb_true_iff. apply IH in H. lia.
Qed.

Lemma index_of_sub_bound pat s i :
  index_of_sub pat s = Some i → (i + length pat ≤ length s)%nat.
Proof.
  revert i. induction s as [|x r IH]; intros i; simpl.
  - destruct (starts_with pat []) eqn:E; [|done].
    intros [= <-]. apply starts_with_length in E. simpl in *. lia.
  - destruct (starts_with pat (x :: r)) eqn:E.
    + intros [= <-]. apply starts_with_length in E. simpl in *. lia.
    + destruct (index_of_sub pat r) as [j|]; simpl; [|done].
      intros [= <-]. specialize (IH j eq_refl). lia.
Qed.

Lemma find_str_bounds s pat pos i :
  find_str s pat pos = Some i → (pos ≤ i ∧ i + length pat ≤ length s)%nat.
Proof.
  unfold find_str. case_decide; [|done].
  destruct (index_of_sub pat (drop pos s)) as [j|] eqn:E; simpl; [|done].
  intros [= <-]. apply index_of_sub_bound in E. rewrite length_drop in E. lia.
Qed.

(** The measure of both loops: what is left of the string after the cursor. *)
Definition cursor_measure (s : str) (pos : option nat) : nat :=
  match pos with
  | None => 0
  | Some p => S (length s - p)
  end.

(** Lines 260-263:
<<
  while (colonPos != std::string::npos) {
      extractedFilePath[colonPos] = ' ';
      colonPos = extractedFilePath.find(':', colonPos + 1);
  }
>> *)
Equations? replace_colons_loop (extractedFilePath : str) (colonPos : option nat) : str
  by wf (cursor_measure extractedFilePath colonPos) lt :=
  replace_colons_loop s None := s;
  replace_colons_loop s (Some p) :=
    replace_colons_loop (set_at s p space) (find_char (set_at s p space) colon (p + 1)).
Proof.
  destruct (find_char _ _ _) as [i|] eqn:E; simpl; [|lia].
  apply find_char_bounds in E. unfold set_at in *.
  rewrite length_insert in E. rewrite length_insert. lia.
Qed.

(** Lines 257-264: every colon after the first one of the path becomes a
    space. *)
Definition replace_colons (extractedFilePath : str) : str :=
  match find_char extractedFilePath colon 0 with
  | Some firstColonPos =>
      replace_colons_loop extractedFilePath
        (find_char extractedFilePath colon (firstColonPos + 1))
  | None => extractedFilePath
  end.

(** Lines 268-271:
<<
  while (pos != std::string::npos) {
      extractedFilePath.replace(pos, 2, " ");
      pos = extractedFilePath.find("  ", pos + 1);
  }
>> *)
Equations? collapse_loop (extractedFilePath : str) (pos : option nat) : str
  by wf (cursor_measure extractedFilePath pos) lt :=
  collapse_loop s None := s;
  collapse_loop s (Some p) :=
    collapse_loop (replace s p 2 (lit " ")) (find_str (replace s p 2 (lit " ")) (lit "  ") (p + 1)).
Proof.
  destruct (find_str _ _ _) as [i|] eqn:E; simpl; [|lia].
  apply find_str_bounds in E. unfold replace in *. simpl in E.
  rewrite length_app in E. simpl in E. rewrite length_take, length_drop in E.
  rewrite length_app. simpl. rewrite length_take, length_drop. lia.
Qed.

(** Lines 267-271. *)
Definition collapse_spaces (extractedFilePath : str) : str :=
  collapse_loop extractedFilePath (find_str extractedFilePath (lit "  ") 0).

(** Lines 250 and 256-271: the path an entry is written to. *)
Definition sanitized_path (toDestination fileName : str) : str :=
  collapse_spaces (replace_colons (toDestination ++ fileName)).

End Sanitize.
Import Sanitize.

(** ** The world the two operations act on *)

Module Sys.

(** Mutable state: the file system, the C library's open streams, the log
    sink and the process-wide atomics of lines 34-37. The last three fields
    count what was asked of libcurl. *)
Record World := mkWorld {
  files : gmap str (list ascii);        (* regular files: path to contents *)
  dirs : gset str;                       (* directories asked of createDirectory *)
  streams : gmap nat (str * Z);          (* open FILE streams: path and position *)
  next_stream : nat;                     (* the next FILE handle fopen gives out *)
  logged : list str;                     (* messages given to logMessage, oldest first *)
  abortDownload : bool;
  abortUnzip : bool;
  downloadPercentage : Z;
  curl_inits : nat;                      (* calls of curl_easy_init so far *)
  curl_handles : gset nat;               (* live easy handles *)
  curl_performs : nat                    (* calls of curl_easy_perform so far *)
}.

(** An event of one transfer, as [curl_easy_perform] meets them in order:
    bytes arrive, the transport reports progress, or the other execution
    context stores [true] into [abortDownload]. *)
Inductive xfer_event :=
| XRecv (contents : list ascii)
| XProgress (dltotal dlnow ultotal ulnow : spec_float)
| XAbortRequest.

(** An entry of an archive: its name (the C string [d_name]), whether
    [zzip_file_open] succeeds on it, and the blocks successive calls of
    [zzip_file_read] deliver. *)
Record zip_entry := mkEntry {
  d_name : str;
  zf_open_ok : bool;
  zf_reads : list (list ascii)
}.

(** An event of one archive walk: [zzip_dir_read] yields the next entry, or
    the other execution context stores [true] into [abortUnzip]. *)
Inductive unzip_event :=
| ZEntry (entry : zip_entry)
| ZAbortRequest.

(** What the code does not control. *)
Record Env := mkEnv {
  (* does the n-th call of curl_easy_init (counted from 0) give a handle? *)
  curl_init_ok : nat → bool;
  (* does fopen(path, "wb") succeed? *)
  fopen_ok : str → bool;
  (* ftell on a stream that was closed: undefined in C, an error (-1) in POSIX *)
  ftell_closed : Z;
  (* the events of the transfer of a URL and the CURLcode it ends with when
     no callback stops it *)
  transfer : str → list xfer_event * Z;
  curl_easy_strerror : Z → str;
  (* the walk of the archive at a path; None when it cannot be opened *)
  zzip_dir : str → option (list unzip_event)
}.

Definition set_files f (w : World) : World :=
  mkWorld f (dirs w) (streams w) (next_stream w) (logged w) (abortDownload w)
    (abortUnzip w) (downloadPercentage w) (curl_inits w) (curl_handles w) (curl_performs w).
Definition set_dirs d (w : World) : World :=
  mkWorld (files w) d (streams w) (next_stream w) (logged w) (abortDownload w)
    (abortUnzip w) (downloadPercentage w) (curl_inits w) (curl_handles w) (curl_performs w).
Definition set_streams s n (w : World) : World :=
  mkWorld (files w) (dirs w) s n (logged w) (abortDownload w)
    (abortUnzip w) (downloadPercentage w) (curl_inits w) (curl_handles w) (curl_performs w).
Definition set_logged l (w : World) : World :=
  mkWorld (files w) (dirs w) (streams w) (next_stream w) l (abortDownload w)
    (abortUnzip w) (downloadPercentage w) (curl_inits w) (curl_handles w) (curl_performs w).
Definition set_abortDownload b (w : World) : World :=
  mkWorld (files w) (dirs w) (streams w) (next_stream w) (logged w) b
    (abortUnzip w) (downloadPercentage w) (curl_inits w) (curl_handles w) (curl_performs w).
Definition set_abortUnzip b (w : World) : World :=
  mkWorld (files w) (dirs w) (streams w) (next_stream w) (logged w) (abortDownload w)
    b (downloadPercentage w) (curl_inits w) (curl_handles w) (curl_performs w).
Definition set_downloadPercentage p (w : World) : World :=
  mkWorld (files w) (dirs w) (streams w) (next_stream w) (logged w) (abortDownload w)
    (abortUnzip w) p (curl_inits w) (curl_handles w) (curl_performs w).
Definition set_curl i h n (w : World) : World :=
  mkWorld (files w) (dirs w) (streams w) (next_stream w) (logged w) (abortDownload w)
    (abortUnzip w) (downloadPercentage w) i h n.

(** [logMessage] of debug_funcs.hpp, lines 33-53. The sink is the sequence of
    messages it was given; the time stamp it puts in front and the opening
    of the log file (whose failure it swallows) are left out. The line that
    the function appends to the log file is therefore not in [files]: what
    is stated below about files that stay as they are leaves the log file
    out (see [DebugFuncs] for the line and the file). *)
Definition logMessage (message : str) (w : World) : World :=
  set_logged (logged w ++ [message]) w.

(** Modelled from the spec: [createDirectory] of path_funcs.hpp, which is not
    among the sources. The spec's file-system contract is
    [ensureDirectoryExists(path) -> void], idempotent; the directories asked
    for are recorded. *)
Definition createDirectory (path : str) (w : World) : World :=
  set_dirs ({[path]} ∪ dirs w) w.

(** [fopen(path, "wb")]: creates or truncates the file. *)
Definition fopen (env : Env) (path : str) (w : World) : option nat * World :=
  if fopen_ok env path
  then (Some (next_stream w),
        set_streams (<[next_stream w := (path, 0)]> (streams w)) (S (next_stream w))
          (set_files (<[path := []]> (files w)) w))
  else (None, w).

(** [fwrite(contents, 1, n, file)]: the number of bytes written. *)
Definition fwrite (contents : list ascii) (file : nat) (w : World) : nat * World :=
  match streams w !! file with
  | Some (path, pos) =>
      (length contents,
       set_streams (<[file := (path, pos + Z.of_nat (length contents))]> (streams w))
         (next_stream w)
         (set_files (<[path := default [] (files w !! path) ++ contents]> (files w)) w))
  | None => (0%nat, w)
  end.

Definition fclose (file : nat) (w : World) : World :=
  set_streams (delete file (streams w)) (next_stream w) w.

Definition ftell (env : Env) (file : nat) (w : World) : Z :=
  match streams w !! file with
  | Some (_, pos) => pos
  | None => ftell_closed env
  end.

(** [std::remove(path)] *)
Definition remove (path : str) (w : World) : World :=
  set_files (delete path (files w)) w.

Definition curl_easy_init (env : Env) (w : World) : option nat * World :=
  let n := curl_inits w in
  if curl_init_ok env n
  then (Some n, set_curl (S n) ({[n]} ∪ curl_handles w) (curl_performs w) w)
  else (None, set_curl (S n) (curl_handles w) (curl_performs w) w).

Definition curl_easy_cleanup (curl : nat) (w : World) : World :=
  set_curl (curl_inits w) (curl_handles w ∖ {[curl]}) (curl_performs w) w.

End Sys.
Import Sys.

(** ** [double] and [int] *)

Module Double.

(** IEEE-754 binary64. *)
Definition prec : Z := 53.
Definition emax : Z := 1024.

Abbreviation double := spec_float.

Definition INT_MAX : Z := 2147483647.
Definition INT_MIN : Z := -2147483648.

(** An [int] constant converted to [double]. *)
Definition double_of_int (n : Z) : double := binary_normalize prec emax n 0 false.

Definition div (x y : double) : double := SFdiv prec emax x y.
Definition mul (x y : double) : double := SFmul prec emax x y.
Definition leb (x y : double) : bool := SFleb x y.

(** [round] of <cmath>: to the nearest integer, halfway cases away from zero.
    The result is again a [double]; a finite one with a non-negative exponent
    is an integer already. *)
Definition round (x : double) : double :=
  match x with
  | S754_finite s m e =>
      if 0 <=? e then x
      else match (Z.pos m + 2 ^ (- e - 1)) / 2 ^ (- e) with
           | Z.pos q =>
               let '(m', e') := shl_align q 0 (fexp prec emax (Z.pos (digits2_pos q))) in
               S754_finite s m' e'
           | _ => S754_zero s
           end
  | _ => x
  end.

(** [static_cast<int>]: truncation toward zero. C++ leaves the conversion
    undefined when the value does not fit an [int]; the overlay runs on
    AArch64 only, whose conversion instruction saturates and sends NaN to 0,
    and that is what is modelled. *)
Definition to_int (x : double) : Z :=
  match x with
  | S754_zero _ => 0
  | S754_nan => 0
  | S754_infinity s => if s then INT_MIN else INT_MAX
  | S754_finite s m e =>
      let a := if 0 <=? e then Z.pos m * 2 ^ e else Z.pos m / 2 ^ (- e) in
      let v := if s then - a else a in
      Z.max INT_MIN (Z.min INT_MAX v)
  end.

End Double.

(** ** The transfer engine *)

Module Transfer.
Import Double.

Definition CURLE_OK : Z := 0.
Definition CURLE_WRITE_ERROR : Z := 23.
Definition CURLE_ABORTED_BY_CALLBACK : Z := 42.

(** Lines 42-44. *)
Definition writeCallback (contents : list ascii) (file : nat) (w : World) : nat * World :=
  fwrite contents file w.

(** Lines 48-61: the new value of the atomic [percentage] points to, given
    its current one. *)
Definition updateProgress (percentage : Z) (totalToDownload nowDownloaded : double) : Z :=
  if leb totalToDownload (S754_zero false) then percentage
  else to_int (round (mul (div nowDownloaded totalToDownload) (double_of_int 100))).

(** Lines 64-82. *)
Definition progressCallback (totalToDownload nowDownloaded totalToUpload nowUploaded : double)
    (w : World) : Z * World :=
  let w1 := set_downloadPercentage
              (updateProgress (downloadPercentage w) totalToDownload nowDownloaded) w in
  if abortDownload w1
  then (1, set_downloadPercentage (-1) w1)
  else (0, w1).

(** The transport's side of [curl_easy_perform], with the write and progress
    callbacks of lines 160-170 installed: it hands the bytes that arrive to
    [writeCallback], calls [progressCallback] at its checkpoints, and gives up
    when a callback tells it to. *)
Fixpoint run_transfer (events : list xfer_event) (final : Z) (file : nat) (w : World)
    : Z * World :=
  match events with
  | [] => (final, w)
  | XRecv contents :: rest =>
      let '(n, w1) := writeCallback contents file w in
      if decide (n = length contents) then run_transfer rest final file w1
      else (CURLE_WRITE_ERROR, w1)
  | XProgress dltotal dlnow ultotal ulnow :: rest =>
      let '(r, w1) := progressCallback dltotal dlnow ultotal ulnow w in
      if r =? 0 then run_transfer rest final file w1
      else (CURLE_ABORTED_BY_CALLBACK, w1)
  | XAbortRequest :: rest =>
      run_transfer rest final file (set_abortDownload true w)
  end.

Definition curl_easy_perform (env : Env) (url : str) (file : nat) (w : World) : Z * World :=
  let '(events, final) := transfer env url in
  run_transfer events final file
    (set_curl (curl_inits w) (curl_handles w) (S (curl_performs w)) w).

Definition MAX_RETRIES : Z := 3.

(** Lines 128-138:
<<
  while (retryCount < MAX_RETRIES) {
      curl = curl_easy_init();
      if (curl) break;
      else { retryCount++; logMessage("Error initializing curl. Retrying..."); }
  }
>>
    from the value [retryCount] has when the condition is tested; the result
    is [curl] after the loop. *)
Equations? curl_init_loop (env : Env) (retryCount : Z) (w : World) : option nat * World
  by wf (Z.to_nat (MAX_RETRIES - retryCount)) lt :=
  curl_init_loop env retryCount w with decide (retryCount < MAX_RETRIES) => {
    | right _ := (None, w)
    | left _ with curl_easy_init env w => {
      | (Some curl, w1) := (Some curl, w1)
      | (None, w1) :=
          curl_init_loop env (retryCount + 1)
            (logMessage (lit "Error initializing curl. Retrying...") w1) } }.
Proof. lia. Qed.

(** Lines 145-215: what [downloadFile] does once it holds a handle and knows
    the destination. *)
Definition download_with (env : Env) (curl : nat) (url destination : str) (w : World)
    : bool * World :=
  match fopen env (c_str destination) w with
  | (None, w) =>
      let w := logMessage (lit "Error opening file: " ++ destination) w in
      let w := curl_easy_cleanup curl w in
      (false, w)
  | (Some file, w) =>
      let '(result, w) := curl_easy_perform env (c_str url) file w in
      let w := curl_easy_cleanup curl w in
      let w := fclose file w in
      if negb (result =? CURLE_OK) then
        let w := logMessage (lit "Error downloading file: " ++ curl_easy_strerror env result) w in
        let w := remove (c_str destination) w in
        (false, w)
      else
        let fileSize := ftell env file w in
        if fileSize =? 0 then
          let w := logMessage (lit "Error downloading file: Empty file") w in
          let w := remove (c_str destination) w in
          (false, w)
        else
          let w := logMessage (lit "Download Complete!") w in
          (true, w)
  end.

(** Lines 124-215: the bounded acquisition of the handle, then the transfer. *)
Definition download_to (env : Env) (url destination : str) (w : World) : bool * World :=
  let retryCount := 0 in
  match curl_init_loop env retryCount w with
  | (None, w) =>
      (false, logMessage (lit "Error initializing curl after multiple retries.") w)
  | (Some curl, w) => download_with env curl url destination w
  end.

(** Lines 94-215. [None] is undefined behaviour: [destination.back()] on an
    empty string. *)
Definition downloadFile (env : Env) (url toDestination : str) (w : World)
    : option (bool * World) :=
  let w := set_abortDownload false w in
  match find_first_of url (lit "{}") with
  | Some _ => Some (false, logMessage (lit "Invalid URL: " ++ url) w)
  | None =>
      let destination := c_str toDestination in
      match back destination with
      | None => None
      | Some c =>
          if Ascii.eqb c slash then
            let w := createDirectory destination w in
            match find_last_of url slash with
            | Some lastSlash =>
                let filename := substr_from url (lastSlash + 1) in
                Some (download_to env url (destination ++ filename) w)
            | None => Some (false, logMessage (lit "Invalid URL: " ++ url) w)
            end
          else
            let w := createDirectory
                       (substr_to destination (find_last_of destination slash) ++ lit "/") w in
            Some (download_to env url destination w)
      end
  end.

End Transfer.
Import Transfer.

(** ** The archive extractor *)

Module Extract.

(** [str == lit]. *)
Definition str_eqb (a b : str) : bool := bool_decide (a = b).

(** Lines 297-299:
<<
  while ((bytesRead = zzip_file_read(file, buffer, bufferSize)) > 0)
      fwrite(buffer, 1, bytesRead, outputFile);
>>
    over the blocks the reads deliver; a read that delivers nothing (the end
    of the entry, or an error) ends the loop. *)
Fixpoint copy_loop (reads : list (list ascii)) (outputFile : nat) (w : World) : World :=
  match reads with
  | [] => w
  | buffer :: rest =>
      if decide (0 < length buffer)%nat
      then copy_loop rest outputFile (fwrite buffer outputFile w).2
      else w
  end.

(** Line 245: [entry.d_name[0] == '\0']. *)
Definition empty_name (d_name : str) : bool :=
  match d_name with
  | [] => true
  | c :: _ => Ascii.eqb c nul
  end.

(** Line 253. *)
Definition ends_with_dots (extractedFilePath : str) : bool :=
  bool_decide (3 ≤ length extractedFilePath)%nat
  && str_eqb (substr_from extractedFilePath (length extractedFilePath - 3)) (lit "...").

(** Lines 244-311: the body of the loop for one entry, after the check of
    the abort flag. The result is the new value of [success]; [None] is
    undefined behaviour ([back()] of an empty path, line 281). *)
Definition extract_entry (env : Env) (toDestination : str) (entry : zip_entry)
    (success : bool) (w : World) : option (bool * World) :=
  if empty_name (d_name entry) then Some (success, w)
  else
    let fileName := c_str (d_name entry) in
    let extractedFilePath := toDestination ++ fileName in
    if ends_with_dots extractedFilePath then Some (success, w)
    else
      let extractedFilePath := collapse_spaces (replace_colons extractedFilePath) in
      if negb (bool_decide (extractedFilePath = []))
         && bool_decide (back extractedFilePath = Some slash)
      then Some (success, w)
      else
        match back extractedFilePath with
        | None => None
        | Some c =>
            let directoryPath :=
              if negb (Ascii.eqb c slash)
              then substr_to extractedFilePath (find_last_of extractedFilePath slash) ++ lit "/"
              else extractedFilePath in
            let w := createDirectory directoryPath w in
            if zf_open_ok entry then
              match fopen env (c_str extractedFilePath) w with
              | (Some outputFile, w) =>
                  let w := copy_loop (zf_reads entry) outputFile w in
                  let w := fclose outputFile w in
                  Some (success, w)
              | (None, w) =>
                  Some (false,
                        logMessage (lit "Error opening output file: " ++ extractedFilePath) w)
              end
            else
              Some (false, logMessage (lit "Error opening file in zip: " ++ fileName) w)
        end.

(** Lines 238-312: the walk. An abort request that arrives takes effect at
    the check on top of the next iteration. *)
Fixpoint unzip_loop (env : Env) (toDestination : str) (events : list unzip_event)
    (success : bool) (w : World) : option (bool * World) :=
  match events with
  | [] => Some (success, w)
  | ZAbortRequest :: rest =>
      unzip_loop env toDestination rest success (set_abortUnzip true w)
  | ZEntry entry :: rest =>
      if abortUnzip w then Some (success, set_abortUnzip false w)
      else
        match extract_entry env toDestination entry success w with
        | Some (success, w) => unzip_loop env toDestination rest success w
        | None => None
        end
  end.

(** Lines 227-316. *)
Definition unzipFile (env : Env) (zipFilePath toDestination : str) (w : World)
    : option (bool * World) :=
  let w := set_abortUnzip false w in
  match zzip_dir env (c_str zipFilePath) with
  | None => Some (false, logMessage (lit "Error opening zip file: " ++ zipFilePath) w)
  | Some events =>
      let success := true in
      unzip_loop env toDestination events success w
  end.

End Extract.
Import Extract.

(** ** The log sink

    [logMessage] of lib/libultra/debug_funcs.hpp as it is written: the line
    it builds for a message and the file it appends that line to. The two
    operations above go through [Sys.logMessage], which keeps the sequence of
    the messages and leaves the line and the file out. *)

Module DebugFuncs.

(** Line 22 of debug_funcs.hpp. *)
Definition logFilePath : str := lit "sdmc:/config/ultrahand/log.txt".

Definition CR : ascii := "013"%char.
Definition LF : ascii := "010"%char.

(** [s.find_last_not_of(set)] *)
Fixpoint find_last_not_of (s set : str) : option nat :=
  match s with
  | [] => None
  | x :: r => match find_last_not_of r set with
              | Some i => Some (S i)
              | None => if existsb (Ascii.eqb x) set then None else Some 0%nat
              end
  end.

(** [s.erase(pos)] for [pos <= s.size()]: the characters from [pos] on go. *)
Definition erase (s : str) (pos : nat) : str := take pos s.

(** Lines 36-42: the line that is written for a message, given the text
    [std::asctime] has for the current local time. *)
Definition log_entry (asctime message : str) : str :=
  let logEntry := asctime in
  let lastNonNewline := find_last_not_of logEntry [CR; LF] in
  let logEntry :=
    match lastNonNewline with
    | Some lastNonNewline => erase logEntry (lastNonNewline + 1)
    | None => logEntry
    end in
  lit "[" ++ logEntry ++ lit "] " ++ message ++ [LF].

(** Lines 33-53, with the log file as a file of the world. What the call
    gets from the outside is the text of the current time and whether the
    log file can be opened for appending ([is_open]); when it cannot,
    nothing is done about it. The mutex of line 34 orders the calls, which
    the explicit threading of the world does as well. *)
Definition logMessage (asctime : str) (is_open : bool) (message : str) (w : World) : World :=
  let logEntry := log_entry asctime message in
  if is_open
  then set_files (<[logFilePath := default [] (files w !! logFilePath) ++ logEntry]> (files w)) w
  else w.

End DebugFuncs.

(** * Properties *)

(** ** Sanitization *)

Section SanitizeFacts.

(** What the colon loop computes on a character. *)
Definition colon_to_space (c : ascii) : ascii :=
  if Ascii.eqb c colon then space else c.

(** One pass from left to right that takes two spaces at a time and puts one
    in their place. *)
Fixpoint collapse_pass (s : str) : str :=
  match s with
  | [] => []
  | a :: r =>
      match r with
      | b :: r' =>
          if Ascii.eqb a space && Ascii.eqb b space
          then space :: collapse_pass r'
          else a :: collapse_pass r
      | [] => [a]
      end
  end.

(** Two consecutive spaces somewhere in [s]. *)
Definition has_double_space (s : str) : Prop :=
  ∃ i, s !! i = Some space ∧ s !! S i = Some space.

(** Three consecutive spaces somewhere in [s]. *)
Definition has_triple_space (s : str) : Prop :=
  ∃ i, s !! i = Some space ∧ s !! S i = Some space ∧ s !! S (S i) = Some space.

Lemma ascii_eqb_true (a b : ascii) : Ascii.eqb a b = true ↔ a = b.
Proof. apply Ascii.eqb_eq. Qed.

Lemma ascii_eqb_false (a b : ascii) : Ascii.eqb a b = false ↔ a ≠ b.
Proof. apply Ascii.eqb_neq. Qed.

Lemma index_of_None c s : index_of c s = None ↔ c ∉ s.
Proof.
  induction s as [|x r IH]; simpl.
  - split; [intros _; apply not_elem_of_nil | done].
  - destruct (Ascii.eqb x c) eqn:E.
    + apply ascii_eqb_true in E as ->. split; [done|]. intros H. destruct H. left.
    + apply ascii_eqb_false in E. rewrite not_elem_of_cons.
      destruct (index_of c r); simpl; split; try done.
      * intros [_ H]. by apply IH in H.
      * intros _. split; [done|]. by apply IH.
Qed.

Lemma map_colon_to_space_id s : colon ∉ s → map colon_to_space s = s.
Proof.
  induction s as [|x r IH]; [done|].
  rewrite not_elem_of_cons. intros [Hx Hr]. simpl. rewrite IH by done.
  unfold colon_to_space. destruct (Ascii.eqb x colon) eqn:E; [|done].
  apply ascii_eqb_true in E. congruence.
Qed.

Lemma find_char_app pre post c k :
  k = length pre →
  find_char (pre ++ post) c k = (λ i, (length pre + i)%nat) <$> index_of c post.
Proof. intros ->. unfold find_char. by rewrite drop_app_length. Qed.

(** The colon loop, started at the first colon at or after the end of [pre],
    leaves [pre] alone and replaces every colon after it. *)
Lemma replace_colons_loop_spec post : ∀ pre,
  replace_colons_loop (pre ++ post) ((λ i, (length pre + i)%nat) <$> index_of colon post)
  = pre ++ map colon_to_space post.
Proof.
  induction post as [|x r IH]; intros pre; simpl.
  - by simp replace_colons_loop.
  - unfold colon_to_space at 1. destruct (Ascii.eqb x colon) eqn:E; simpl.
    + apply ascii_eqb_true in E as ->.
      simp replace_colons_loop. unfold set_at.
      rewrite Nat.add_0_r, insert_app_r_alt, Nat.sub_diag by lia. simpl.
      rewrite (cons_middle space pre r), app_assoc.
      rewrite find_char_app by (rewrite length_app; simpl; lia).
      rewrite IH. by rewrite <- app_assoc.
    + assert (pre ++ x :: map colon_to_space r = (pre ++ [x]) ++ map colon_to_space r)
        as -> by (by rewrite <- app_assoc).
      rewrite <- (IH (pre ++ [x])).
      rewrite <- app_assoc. simpl. f_equal. rewrite length_app. simpl.
      destruct (index_of colon r); simpl; [|done]. f_equal. lia.
Qed.

(** Lines 257-264 keep everything up to the first colon of the path and turn
    every later colon into a space. *)
Lemma replace_colons_spec pre post :
  colon ∉ pre →
  replace_colons (pre ++ colon :: post) = pre ++ colon :: map colon_to_space post.
Proof.
  intros Hpre. unfold replace_colons.
  assert (find_char (pre ++ colon :: post) colon 0 = Some (length pre)) as ->.
  { unfold find_char. rewrite drop_0.
    induction pre as [|x r IH]; simpl; [done|].
    apply not_elem_of_cons in Hpre as [Hx Hr].
    destruct (Ascii.eqb x colon) eqn:E.
    - apply ascii_eqb_true in E. congruence.
    - specialize (IH Hr). simpl in IH.
      destruct (index_of colon (r ++ colon :: post)); simpl in *; congruence. }
  rewrite (cons_middle colon pre post), app_assoc.
  rewrite find_char_app by (rewrite length_app; simpl; lia).
  rewrite replace_colons_loop_spec. by rewrite <- app_assoc.
Qed.

Lemma replace_colons_none s : colon ∉ s → replace_colons s = s.
Proof.
  intros H. unfold replace_colons, find_char. rewrite drop_0.
  apply index_of_None in H. by rewrite H.
Qed.

End SanitizeFacts.

Section CollapseFacts.

Lemma find_str_app pre post pat k :
  k = length pre →
  find_str (pre ++ post) pat k = (λ i, (length pre + i)%nat) <$> index_of_sub pat post.
Proof.
  intros ->. unfold find_str. rewrite drop_app_length.
  case_decide as H; [done|]. rewrite length_app in H. lia.
Qed.

Lemma starts_with_double_space s :
  starts_with (lit "  ") s = true ↔ ∃ r, s = space :: space :: r.
Proof.
  split.
  - destruct s as [|a [|b r]]; simpl; try done.
    + by rewrite andb_false_r.
    + rewrite andb_true_r. intros [Ha Hb]%andb_true_iff.
      apply ascii_eqb_true in Ha, Hb. subst. by exists r.
  - intros [r ->]. done.
Qed.

Lemma collapse_pass_cons_other a r :
  starts_with (lit "  ") (a :: r) = false → collapse_pass (a :: r) = a :: collapse_pass r.
Proof.
  destruct r as [|b r']; [done|].
  change (starts_with (lit "  ") (a :: b :: r'))
    with (Ascii.eqb a space && (Ascii.eqb b space && true)).
  change (collapse_pass (a :: b :: r'))
    with (if Ascii.eqb a space && Ascii.eqb b space
          then space :: collapse_pass r' else a :: collapse_pass (b :: r')).
  rewrite andb_true_r. by intros ->.
Qed.

(** The space loop, started at the first double space at or after the end of
    [pre], leaves [pre] alone and makes one pass over the rest. *)
Lemma collapse_loop_spec n : ∀ post pre,
  (length post ≤ n)%nat →
  collapse_loop (pre ++ post)
    ((λ i, (length pre + i)%nat) <$> index_of_sub (lit "  ") post)
  = pre ++ collapse_pass post.
Proof.
  induction n as [|n IH]; intros post pre Hn.
  - destruct post; [|simpl in Hn; lia]. simpl. by simp collapse_loop.
  - destruct (starts_with (lit "  ") post) eqn:E.
    + pose proof E as [r ->]%starts_with_double_space.
      unfold index_of_sub; fold index_of_sub. rewrite E. simpl fmap.
      simp collapse_loop. unfold replace.
      rewrite Nat.add_0_r, take_app_length.
      rewrite drop_app_add'. 2: done. simpl drop. rewrite drop_0.
      assert (pre ++ lit " " ++ r = (pre ++ [space]) ++ r) as ->
        by (by rewrite <- app_assoc).
      rewrite find_str_app by (rewrite length_app; simpl; lia).
      rewrite IH by (simpl in Hn; lia).
      simpl. by rewrite <- app_assoc.
    + destruct post as [|x r].
      * simpl. by simp collapse_loop.
      * rewrite collapse_pass_cons_other by done.
        unfold index_of_sub; fold index_of_sub. rewrite E.
        assert (pre ++ x :: collapse_pass r = (pre ++ [x]) ++ collapse_pass r) as ->
          by (by rewrite <- app_assoc).
        rewrite <- (IH r (pre ++ [x])) by (simpl in Hn; lia).
        rewrite <- app_assoc. simpl. f_equal. rewrite length_app. simpl.
        destruct (index_of_sub _ r); simpl; [|done]. f_equal. lia.
Qed.

(** Lines 267-271 make one pass: each pair of spaces met from left to right
    becomes one space, and what the replacement puts together is not looked
    at again. *)
Lemma collapse_spaces_pass s : collapse_spaces s = collapse_pass s.
Proof.
  unfold collapse_spaces.
  rewrite (find_str_app [] s) by done.
  pose proof (collapse_loop_spec (length s) s [] (Nat.le_refl _)) as H.
  simpl in H. exact H.
Qed.

End CollapseFacts.

Section SpaceRuns.

Lemma has_double_space_cons a s :
  has_double_space (a :: s) ↔ (a = space ∧ head s = Some space) ∨ has_double_space s.
Proof.
  split.
  - intros [[|i] [H1 H2]]; simpl in *.
    + left. split; [congruence|]. by destruct s.
    + right. by exists i.
  - intros [[-> H]|[i [H1 H2]]].
    + exists 0%nat. split; [done|]. by destruct s.
    + by exists (S i).
Qed.

Lemma has_triple_space_cons a s : has_triple_space s → has_triple_space (a :: s).
Proof. intros (i & H1 & H2 & H3). by exists (S i). Qed.

Lemma head_collapse_pass s : head (collapse_pass s) = head s.
Proof.
  destruct s as [|a [|b r]]; simpl; try done.
  destruct (Ascii.eqb a space) eqn:E; simpl; [|done].
  apply ascii_eqb_true in E as ->.
  by destruct (Ascii.eqb b space).
Qed.

Lemma collapse_pass_cons2 a b r :
  collapse_pass (a :: b :: r)
  = if Ascii.eqb a space && Ascii.eqb b space
    then space :: collapse_pass r else a :: collapse_pass (b :: r).
Proof. done. Qed.

Lemma collapse_pass_no_double n : ∀ s,
  (length s ≤ n)%nat → ¬ has_triple_space s → ¬ has_double_space (collapse_pass s).
Proof.
  induction n as [|n IH]; intros s Hn Ht.
  - destruct s; [|simpl in Hn; lia]. intros [i [H _]]. by destruct i.
  - destruct s as [|a [|b r]].
    + intros [i [H _]]. by destruct i.
    + intros [i [_ H]]. by destruct i.
    + simpl in Hn. rewrite collapse_pass_cons2.
      destruct (Ascii.eqb a space && Ascii.eqb b space) eqn:E.
      * apply andb_true_iff in E as [Ea Eb].
        apply ascii_eqb_true in Ea, Eb. subst a b.
        rewrite has_double_space_cons, head_collapse_pass.
        intros [[_ H]|H].
        -- apply Ht. exists 0%nat. destruct r; simpl in *; [done|].
           by injection H as ->.
        -- revert H. apply IH; [lia|].
           intros H. by apply Ht, has_triple_space_cons, has_triple_space_cons.
      * rewrite has_double_space_cons, head_collapse_pass.
        intros [[-> H]|H].
        -- simpl in H. injection H as ->. done.
        -- revert H. apply IH; [simpl; lia|].
           intros H. by apply Ht, has_triple_space_cons.
Qed.

Lemma collapse_pass_nonempty s : s ≠ [] → collapse_pass s ≠ [].
Proof.
  destruct s as [|a [|b r]]; simpl; try done.
  by destruct (Ascii.eqb a space && Ascii.eqb b space).
Qed.

Lemma replace_colons_length s : length (replace_colons s) = length s.
Proof.
  destruct (decide (colon ∈ s)) as [H|H].
  - apply list_elem_of_split_l in H as (pre & post & -> & Hpre).
    rewrite replace_colons_spec by done.
    rewrite !length_app. simpl. by rewrite length_map.
  - by rewrite replace_colons_none.
Qed.

Lemma sanitized_nonempty s : s ≠ [] → collapse_spaces (replace_colons s) ≠ [].
Proof.
  intros H. rewrite collapse_spaces_pass. apply collapse_pass_nonempty.
  intros E. apply (f_equal length) in E. rewrite replace_colons_length in E.
  by destruct s.
Qed.

End SpaceRuns.

(** ** Sample worlds, for the concrete evaluations below *)

Module Samples.

(** Nothing on the storage, nothing in flight, no progress reported yet. *)
Definition fresh : World := mkWorld ∅ ∅ ∅ 0 [] false false (-1) 0 ∅ 0.

(** An environment in which everything asked of the outside succeeds: [t] is
    what the transport does for any URL and [z] the walk of any archive.
    [ftell] on a closed stream fails with -1, as POSIX has it. *)
Definition env_of (t : list xfer_event * Z) (z : option (list unzip_event)) : Env :=
  mkEnv (λ _, true) (λ _, true) (-1) (λ _, t) (λ _, lit "error") (λ _, z).

(** An environment like [env_of] in which [curl_easy_init] never gives a
    handle. *)
Definition env_no_curl (t : list xfer_event * Z) : Env :=
  mkEnv (λ _, false) (λ _, true) (-1) (λ _, t) (λ _, lit "error") (λ _, None).

(** An archive walked to its end without any abort request. *)
Definition walk (entries : list zip_entry) : list unzip_event := ZEntry <$> entries.

End Samples.
Import Samples.

(** ** C4 and C5: what the sanitization does to colons and spaces *)

Section SanitizeResults.

(** C4. The specification has it that the sanitized path never has two
    consecutive spaces. On the entry name [a:::b.txt] under [sdmc:/out/] all
    three colons become spaces, the loop of lines 268-271 replaces the first
    two by one and resumes the search one position further, behind the pair
    that this has just formed: the path [sdmc:/out/a  b.txt], with two
    spaces, is what the entry is written to. *)
Theorem C4_run_of_three_keeps_double_space :
  let archive := walk [mkEntry (lit "a:::b.txt") true [lit "data"]] in
  sanitized_path (lit "sdmc:/out/") (lit "a:::b.txt") = lit "sdmc:/out/a  b.txt"
  ∧ has_double_space (sanitized_path (lit "sdmc:/out/") (lit "a:::b.txt"))
  ∧ ∃ w, unzipFile (env_of ([], 0) (Some archive)) (lit "pkg.zip") (lit "sdmc:/out/") fresh
         = Some (true, w)
       ∧ files w !! lit "sdmc:/out/a  b.txt" = Some (lit "data").
Proof.
  assert (sanitized_path (lit "sdmc:/out/") (lit "a:::b.txt") = lit "sdmc:/out/a  b.txt")
    as E by (vm_compute; reflexivity).
  split; [exact E|]. split.
  - rewrite E. exists 11%nat. by vm_compute.
  - eexists. split; [vm_compute; reflexivity|]. by vm_compute.
Qed.

(** C5, as stated, fails: under [sdmc:/out/] the first colon of the path is
    the one of [sdmc:], and both colons of [a:b:c.txt] become spaces. *)
Lemma C5_counterexample :
  sanitized_path (lit "sdmc:/out/") (lit "a:b:c.txt") = lit "sdmc:/out/a b c.txt"
  ∧ sanitized_path (lit "sdmc:/out/") (lit "a:b:c.txt") ≠ lit "sdmc:/out/a:b c.txt".
Proof. split; [by vm_compute|]. vm_compute. discriminate. Qed.

Lemma replace_colons_app d n :
  colon ∈ d → replace_colons (d ++ n) = replace_colons d ++ map colon_to_space n.
Proof.
  intros (pre & post & -> & Hpre)%list_elem_of_split_l.
  rewrite <- app_assoc. simpl.
  rewrite !replace_colons_spec by done.
  rewrite map_app, <- app_assoc. done.
Qed.

(** C5, amended. The colon that is kept is the first one of the whole path,
    destination included. For an entry name [x:y:z] with two colons: under a
    destination without colon the first colon of the name stays and the
    second becomes a space; under a destination with a colon (the [sdmc:]
    case) both colons of the name become spaces. The space loop then makes
    its pass over that path, and when the path has no run of three spaces the
    result has no double space left. *)
Theorem C5_first_colon_of_path_is_kept (toDestination x y z : str) :
  colon ∉ x → colon ∉ y → colon ∉ z →
  let fileName := x ++ colon :: y ++ colon :: z in
  let replaced :=
    if decide (colon ∈ toDestination)
    then replace_colons toDestination ++ x ++ space :: y ++ space :: z
    else toDestination ++ x ++ colon :: y ++ space :: z in
  replace_colons (toDestination ++ fileName) = replaced
  ∧ sanitized_path toDestination fileName = collapse_pass replaced
  ∧ (¬ has_triple_space replaced
     → ¬ has_double_space (sanitized_path toDestination fileName)).
Proof.
  intros Hx Hy Hz fileName replaced.
  assert (replace_colons (toDestination ++ fileName) = replaced) as E.
  { unfold replaced, fileName. case_decide as Hd.
    - rewrite replace_colons_app by done. f_equal.
      rewrite map_app. simpl. rewrite map_app. simpl.
      rewrite !map_colon_to_space_id by done. done.
    - rewrite app_assoc.
      rewrite replace_colons_spec.
      + rewrite map_app. simpl. rewrite !map_colon_to_space_id by done.
        by rewrite <- app_assoc.
      + rewrite not_elem_of_app. done. }
  assert (sanitized_path toDestination fileName = collapse_pass replaced) as E2.
  { unfold sanitized_path. by rewrite collapse_spaces_pass, E. }
  split; [done|]. split; [done|].
  rewrite E2. intros Ht. by apply (collapse_pass_no_double (length replaced)).
Qed.

Lemma C5_first_colon_of_path_is_kept_witness :
  replace_colons (lit "out/" ++ lit "a:b:c.txt") = lit "out/a:b c.txt"
  ∧ sanitized_path (lit "out/") (lit "a:b:c.txt") = lit "out/a:b c.txt".
Proof.
  assert (∀ s : str, bool_decide (colon ∉ s) = true → colon ∉ s) as nocolon
    by (intros s H; by apply bool_decide_eq_true in H).
  destruct (C5_first_colon_of_path_is_kept (lit "out/") (lit "a") (lit "b") (lit "c.txt"))
    as (H1 & H2 & _).
  - apply nocolon. vm_compute. reflexivity.
  - apply nocolon. vm_compute. reflexivity.
  - apply nocolon. vm_compute. reflexivity.
  - split.
    + etrans; [exact H1|]. vm_compute. reflexivity.
    + etrans; [exact H2|]. vm_compute. reflexivity.
Defined.

End SanitizeResults.

(** ** The transfer engine: what the transport and the callbacks leave alone *)

Section TransferFacts.

Definition retry_message : str := lit "Error initializing curl. Retrying...".
Definition give_up_message : str := lit "Error initializing curl after multiple retries.".

(** The acquisition loop unrolled [n] times. *)
Fixpoint acquire (n : nat) (env : Env) (w : World) : option nat * World :=
  match n with
  | O => (None, w)
  | S n =>
      match curl_easy_init env w with
      | (Some curl, w1) => (Some curl, w1)
      | (None, w1) => acquire n env (logMessage retry_message w1)
      end
  end.

(** The loop of lines 128-138 ends, after at most [MAX_RETRIES - retryCount]
    rounds. *)
Lemma curl_init_loop_acquire env n : ∀ retryCount w,
  n = Z.to_nat (MAX_RETRIES - retryCount) →
  curl_init_loop env retryCount w = acquire n env w.
Proof.
  induction n as [|n IH]; intros retryCount w Hn; simp curl_init_loop.
  - destruct (decide (retryCount < MAX_RETRIES)); [lia|]. done.
  - destruct (decide (retryCount < MAX_RETRIES)); [|lia]. simpl.
    destruct (curl_easy_init env w) as [[curl|] w1]; simpl; [done|].
    apply IH. lia.
Qed.

(** How many of the three attempts fail before one succeeds: 3 when none
    does. [n] is the number of earlier calls of [curl_easy_init]. *)
Definition failed_attempts (env : Env) (n : nat) : nat :=
  if curl_init_ok env n then 0
  else if curl_init_ok env (S n) then 1
  else if curl_init_ok env (S (S n)) then 2
  else 3.

Lemma failed_attempts_le env n : (failed_attempts env n ≤ 3)%nat.
Proof. unfold failed_attempts. repeat case_match; lia. Qed.

(** The outcome of the acquisition: the attempts made, one retry message for
    each that failed, and a handle unless all three failed. *)
Lemma acquire_spec env w :
  let n := curl_inits w in
  let f := failed_attempts env n in
  ∃ w1, curl_init_loop env 0 w = (if decide (f = 3%nat) then None else Some (n + f)%nat, w1)
    ∧ curl_inits w1 = (n + if decide (f = 3%nat) then 3 else S f)%nat
    ∧ logged w1 = logged w ++ replicate f retry_message
    ∧ curl_handles w1 = (if decide (f = 3%nat) then curl_handles w
                         else {[(n + f)%nat]} ∪ curl_handles w)
    ∧ files w1 = files w ∧ dirs w1 = dirs w ∧ streams w1 = streams w
    ∧ next_stream w1 = next_stream w
    ∧ abortDownload w1 = abortDownload w ∧ abortUnzip w1 = abortUnzip w
    ∧ downloadPercentage w1 = downloadPercentage w
    ∧ curl_performs w1 = curl_performs w.
Proof.
  intros n f. rewrite (curl_init_loop_acquire env 3) by done.
  unfold f, failed_attempts, n. simpl. unfold curl_easy_init. simpl.
  destruct (curl_init_ok env (curl_inits w)) eqn:E0; simpl.
  { eexists. split; [rewrite Nat.add_0_r; reflexivity|]. simpl.
    rewrite Nat.add_0_r, app_nil_r. repeat split; lia. }
  destruct (curl_init_ok env (S (curl_inits w))) eqn:E1; simpl.
  { eexists. split; [rewrite Nat.add_1_r; reflexivity|]. simpl.
    rewrite Nat.add_1_r. repeat split; lia. }
  destruct (curl_init_ok env (S (S (curl_inits w)))) eqn:E2; simpl.
  { eexists. split; [replace (curl_inits w + 2)%nat with (S (S (curl_inits w))) by lia;
                     reflexivity|]. simpl.
    replace (curl_inits w + 2)%nat with (S (S (curl_inits w))) by lia.
    rewrite <- !app_assoc. repeat split; lia. }
  eexists. split; [reflexivity|]. simpl.
  rewrite <- !app_assoc. repeat split; lia.
Qed.

(** The induction step of the frame lemma below: the rest of the transfer
    leaves the fields alone, from whatever world the first event has led to. *)
Ltac rest_of_transfer IH :=
  match goal with
  | |- context [run_transfer _ _ _ ?w1] =>
      destruct (IH w1) as (-> & -> & -> & -> & -> & -> & ->); done
  end.

(** The transport and the callbacks touch the file, the stream position, the
    percentage and, through the other context, the abort flag; nothing
    else. *)
Lemma run_transfer_frame events final file : ∀ w,
  let w' := (run_transfer events final file w).2 in
  logged w' = logged w ∧ curl_inits w' = curl_inits w
  ∧ curl_handles w' = curl_handles w ∧ curl_performs w' = curl_performs w
  ∧ dirs w' = dirs w ∧ abortUnzip w' = abortUnzip w ∧ next_stream w' = next_stream w.
Proof.
  induction events as [|ev rest IH]; intros w; simpl; [done|].
  destruct ev as [contents|t n ut un|]; simpl.
  - unfold writeCallback, fwrite.
    destruct (streams w !! file) as [[path pos]|] eqn:E; simpl;
      (case_decide; [|done]); rest_of_transfer IH.
  - unfold progressCallback. simpl.
    destruct (abortDownload w); simpl; [done|]. rest_of_transfer IH.
  - rest_of_transfer IH.
Qed.

(** Neither callback writes the abort flag: once it is set, it stays set for
    the rest of the transfer. *)
Lemma progressCallback_abortDownload t n ut un w :
  abortDownload (progressCallback t n ut un w).2 = abortDownload w.
Proof. unfold progressCallback. simpl. by destruct (abortDownload w) eqn:E. Qed.

Lemma run_transfer_abort_stays events final file : ∀ w,
  abortDownload w = true → abortDownload (run_transfer events final file w).2 = true.
Proof.
  induction events as [|ev rest IH]; intros w Hw; simpl; [done|].
  destruct ev as [contents|t n ut un|]; simpl.
  - unfold writeCallback, fwrite.
    destruct (streams w !! file) as [[path pos]|] eqn:E; simpl;
      (case_decide; [by apply IH|by simpl]).
  - unfold progressCallback. simpl. rewrite Hw. done.
  - by apply IH.
Qed.

End TransferFacts.

(** ** C8 and C10: validation and the acquisition of the handle *)

Section Acquisition.

(** The files are as they were, the log file left aside: that one grows
    with every message given to [logMessage]. *)
Definition files_kept_but_log (w w' : World) : Prop :=
  ∀ p, p ≠ DebugFuncs.logFilePath → files w' !! p = files w !! p.

(** The request passes the checks of lines 97-120. *)
Definition accepted (url toDestination : str) : Prop :=
  find_first_of url (lit "{}") = None
  ∧ c_str toDestination ≠ []
  ∧ (back (c_str toDestination) = Some slash → is_Some (find_last_of url slash)).

(** The file an accepted request is written to (lines 102-120). *)
Definition destination_file (url toDestination : str) : str :=
  let destination := c_str toDestination in
  if bool_decide (back destination = Some slash)
  then destination ++ substr_from url (default 0%nat (find_last_of url slash) + 1)
  else destination.

(** The directory an accepted request asks [createDirectory] for. *)
Definition destination_dir (toDestination : str) : str :=
  let destination := c_str toDestination in
  if bool_decide (back destination = Some slash)
  then destination
  else substr_to destination (find_last_of destination slash) ++ lit "/".

Lemma downloadFile_accepted env url toDestination w :
  accepted url toDestination →
  downloadFile env url toDestination w
  = Some (download_to env url (destination_file url toDestination)
            (createDirectory (destination_dir toDestination) (set_abortDownload false w))).
Proof.
  intros (Hurl & Hne & Hslash). unfold downloadFile, destination_file, destination_dir.
  rewrite Hurl.
  destruct (back (c_str toDestination)) as [c|] eqn:Eb.
  2: { apply last_None in Eb. done. }
  destruct (Ascii.eqb c slash) eqn:Ec.
  - apply ascii_eqb_true in Ec as ->.
    rewrite bool_decide_eq_true_2 by done.
    destruct (Hslash eq_refl) as [i ->]. done.
  - apply ascii_eqb_false in Ec.
    rewrite bool_decide_eq_false_2 by congruence. done.
Qed.

Lemma download_with_frame env curl url destination w :
  let w' := (download_with env curl url destination w).2 in
  curl_inits w' = curl_inits w
  ∧ ∃ msg, logged w' = logged w ++ [msg] ∧ msg ≠ retry_message.
Proof.
  unfold download_with, fopen.
  destruct (fopen_ok env (c_str destination)); simpl.
  2: { split; [done|]. eexists. split; [done|]. intros [=]. }
  unfold curl_easy_perform. destruct (transfer env (c_str url)) as [events final].
  match goal with |- context [run_transfer events final ?f ?w1] =>
    pose proof (run_transfer_frame events final f w1) as (Hl & Hi & _);
    destruct (run_transfer events final f w1) as [result w2] end.
  simpl in Hl, Hi.
  destruct (result =? CURLE_OK); simpl.
  - destruct (ftell env _ _ =? 0); simpl; rewrite Hl, Hi;
      (split; [done|]); eexists; (split; [done|]); intros [=].
  - rewrite Hl, Hi. split; [done|]. eexists. split; [done|]. intros [=].
Qed.

(** C8. Once the request is accepted, [downloadFile] returns, having called
    [curl_easy_init] at most three times: once more than the attempts that
    failed, and never a fourth time. Each failed attempt is logged with one
    retry message. When all three fail, the result is [false], the log ends
    with the message of the permanent failure, and there was no transfer: no
    call of [curl_easy_perform], no stream and, but for the log, no file
    touched, the percentage as it was. *)
Theorem C8_handle_acquisition_is_bounded env url toDestination w :
  accepted url toDestination →
  let f := failed_attempts env (curl_inits w) in
  ∃ b w', downloadFile env url toDestination w = Some (b, w')
    ∧ (f ≤ 3)%nat
    ∧ curl_inits w' = (curl_inits w + if decide (f = 3%nat) then 3 else S f)%nat
    ∧ (∃ msg, logged w' = logged w ++ replicate f retry_message ++ [msg]
              ∧ msg ≠ retry_message)
    ∧ (f = 3%nat →
         b = false
         ∧ logged w' = logged w ++ replicate 3 retry_message ++ [give_up_message]
         ∧ curl_performs w' = curl_performs w
         ∧ files_kept_but_log w w' ∧ streams w' = streams w
         ∧ downloadPercentage w' = downloadPercentage w).
Proof.
  intros Hacc f. rewrite downloadFile_accepted by done.
  unfold download_to.
  set (w0 := createDirectory _ _).
  destruct (acquire_spec env w0) as (w1 & Hloop & Hi & Hl & _ & Hf & _ & Hs & _ & _ & _ & Hp & Hn).
  change (curl_inits w0) with (curl_inits w) in *.
  change (logged w0) with (logged w) in *.
  change (files w0) with (files w) in *.
  change (streams w0) with (streams w) in *.
  change (downloadPercentage w0) with (downloadPercentage w) in *.
  change (curl_performs w0) with (curl_performs w) in *.
  fold f in Hloop, Hi, Hl. rewrite Hloop.
  pose proof (failed_attempts_le env (curl_inits w)) as Hle. fold f in Hle.
  destruct (decide (f = 3%nat)) as [E|E].
  - eexists _, _. split; [reflexivity|]. unfold files_kept_but_log. simpl.
    rewrite Hl, Hi, Hf, Hs, Hp, Hn.
    split; [done|]. split; [done|]. split.
    + eexists. rewrite <- app_assoc. split; [done|]. intros [=].
    + intros _. rewrite E, <- app_assoc. done.
  - pose proof (download_with_frame env (curl_inits w + f)%nat url
                  (destination_file url toDestination) w1) as (Hi' & msg & Hl' & Hmsg).
    destruct (download_with _ _ _ _ w1) as [b w'] eqn:Ed. simpl in Hi', Hl'.
    eexists _, _. split; [reflexivity|].
    rewrite Hi', Hl', Hi, Hl. split; [done|]. split; [done|]. split.
    + exists msg. by rewrite <- app_assoc.
    + intros ?. done.
Qed.

Lemma C8_handle_acquisition_is_bounded_witness :
  ∃ b w', downloadFile (env_no_curl ([], 0)) (lit "https://example.com/pkg/app.zip")
            (lit "sdmc:/out/") fresh = Some (b, w')
    ∧ b = false ∧ curl_inits w' = 3%nat ∧ curl_performs w' = 0%nat
    ∧ logged w' = replicate 3 retry_message ++ [give_up_message].
Proof.
  destruct (C8_handle_acquisition_is_bounded (env_no_curl ([], 0))
              (lit "https://example.com/pkg/app.zip") (lit "sdmc:/out/") fresh)
    as (b & w' & H & _ & Hi & _ & Hall).
  - split; [vm_compute; reflexivity|]. split; [vm_compute; discriminate|].
    intros _. vm_compute. eexists. reflexivity.
  - destruct (Hall eq_refl) as (-> & Hl & Hp & _).
    exists false, w'. split; [exact H|]. split; [reflexivity|].
    split; [exact Hi|]. split; [exact Hp|]. exact Hl.
Defined.

(** C10. [downloadFile] requires a destination that is not empty. Line 105
    reads [destination.back()] and nothing before it has looked at the length
    of [destination]: the read of the last character of an empty string (the
    [None] of the model) happens exactly when the destination, as the C
    string that line 102 takes, is empty and the URL has passed the brace
    check, the one statement that comes before. For a destination that is not
    empty the operation is defined, whatever the URL and the world. *)
Theorem C10_empty_destination_is_undefined env url toDestination w :
  downloadFile env url toDestination w = None
  ↔ c_str toDestination = [] ∧ find_first_of url (lit "{}") = None.
Proof.
  unfold downloadFile.
  destruct (find_first_of url (lit "{}")) as [i|] eqn:Eu.
  { split; [done|]. intros [_ [=]]. }
  destruct (back (c_str toDestination)) as [c|] eqn:Eb.
  - split.
    + destruct (Ascii.eqb c slash); [|done].
      by destruct (find_last_of url slash).
    + intros [E _]. rewrite E in Eb. done.
  - apply last_None in Eb. done.
Qed.

End Acquisition.

(** ** C1, C2 and C3: the end of a transfer *)

Section TransferOutcome.

Lemma ftell_after_fclose env file w : ftell env file (fclose file w) = ftell_closed env.
Proof. unfold ftell, fclose. simpl. by rewrite lookup_delete_eq. Qed.

(** With the abort flag set and the stream open, the transfer ends at the
    next progress checkpoint. *)
Lemma run_transfer_abort_pending mid t n ut un post final file : ∀ w,
  abortDownload w = true → is_Some (streams w !! file) →
  ∃ w', run_transfer (mid ++ XProgress t n ut un :: post) final file w
        = (CURLE_ABORTED_BY_CALLBACK, w')
      ∧ downloadPercentage w' = -1 ∧ abortDownload w' = true.
Proof.
  induction mid as [|ev mid IH]; intros w Hflag [[path pos] Hs]; simpl.
  - unfold progressCallback. simpl. rewrite Hflag. simpl. by eexists.
  - destruct ev as [contents|t' n' ut' un'|]; simpl.
    + unfold writeCallback, fwrite. rewrite Hs. simpl.
      rewrite decide_True by done. apply IH; simpl; [done|].
      rewrite lookup_insert_eq. by eexists.
    + unfold progressCallback. simpl. rewrite Hflag. simpl. by eexists.
    + apply IH; simpl; [done|by eexists].
Qed.

(** An abort request followed, sooner or later, by a progress checkpoint
    ends the transfer with [CURLE_ABORTED_BY_CALLBACK], at that checkpoint or
    at an earlier one. *)
Lemma run_transfer_abort_requested pre mid t n ut un post final file : ∀ w,
  is_Some (streams w !! file) →
  ∃ w', run_transfer (pre ++ XAbortRequest :: mid ++ XProgress t n ut un :: post)
          final file w = (CURLE_ABORTED_BY_CALLBACK, w')
      ∧ downloadPercentage w' = -1 ∧ abortDownload w' = true.
Proof.
  induction pre as [|ev pre IH]; intros w [[path pos] Hs]; simpl.
  - apply run_transfer_abort_pending; simpl; [done|by eexists].
  - destruct ev as [contents|t' n' ut' un'|]; simpl.
    + unfold writeCallback, fwrite. rewrite Hs. simpl.
      rewrite decide_True by done. apply IH; simpl.
      rewrite lookup_insert_eq. by eexists.
    + unfold progressCallback. simpl.
      destruct (abortDownload w) eqn:Hflag; simpl; [by eexists|].
      apply IH; simpl. by eexists.
    + apply IH; simpl. by eexists.
Qed.

(** No byte arrives and nobody asks for an abort. *)
Definition delivers_nothing (events : list xfer_event) : Prop :=
  Forall (λ ev, match ev with
                | XRecv contents => contents = []
                | XProgress _ _ _ _ => True
                | XAbortRequest => False
                end) events.

Lemma run_transfer_delivers_nothing events final file path : ∀ w pos,
  delivers_nothing events →
  abortDownload w = false → streams w !! file = Some (path, pos) →
  files w !! path = Some [] →
  ∃ w', run_transfer events final file w = (final, w')
      ∧ files w' !! path = Some [] ∧ abortDownload w' = false.
Proof.
  induction events as [|ev rest IH]; intros w pos Hev Hflag Hs Hf; simpl.
  - by eexists.
  - apply Forall_cons in Hev as [Hhd Htl].
    destruct ev as [contents|t n ut un|]; [subst contents| |done]; simpl.
    + unfold writeCallback, fwrite. rewrite Hs. simpl.
      eapply IH; simpl; [done|done|by rewrite lookup_insert_eq|].
      rewrite Hf. simpl. by rewrite lookup_insert_eq.
    + unfold progressCallback. simpl. rewrite Hflag. simpl.
      eapply IH; simpl; done.
Qed.

(** What an abort request that reaches a checkpoint does to the whole
    call. *)
Lemma downloadFile_aborted env url toDestination w pre mid t n ut un post final :
  accepted url toDestination →
  failed_attempts env (curl_inits w) ≠ 3%nat →
  fopen_ok env (c_str (destination_file url toDestination)) = true →
  transfer env (c_str url)
  = (pre ++ XAbortRequest :: mid ++ XProgress t n ut un :: post, final) →
  ∃ w', downloadFile env url toDestination w = Some (false, w')
      ∧ downloadPercentage w' = -1
      ∧ files w' !! c_str (destination_file url toDestination) = None
      ∧ abortDownload w' = true.
Proof.
  intros Hacc Hf Hopen Htr. rewrite downloadFile_accepted by done.
  unfold download_to. set (w0 := createDirectory _ _).
  destruct (acquire_spec env w0) as (w1 & Hloop & _).
  change (curl_inits w0) with (curl_inits w) in *.
  rewrite Hloop, decide_False by done.
  unfold download_with, fopen. rewrite Hopen.
  unfold curl_easy_perform. rewrite Htr.
  match goal with |- context [run_transfer _ final ?f ?w2] =>
    destruct (run_transfer_abort_requested pre mid t n ut un post final f w2)
      as (w3 & -> & Hp & Hflag) end.
  { simpl. rewrite lookup_insert_eq. by eexists. }
  simpl. eexists. split; [reflexivity|]. simpl.
  split; [done|]. split; [by rewrite lookup_delete_eq|done].
Qed.

(** C2. When, during a transfer, an abort is requested and the transport
    then comes to a progress checkpoint, [downloadFile] returns [false], the
    percentage reads -1 at return, and the destination file is gone: the
    engine has removed what was written of it. *)
Theorem C2_abort_before_next_checkpoint env url toDestination w
    pre mid t n ut un post final :
  accepted url toDestination →
  failed_attempts env (curl_inits w) ≠ 3%nat →
  fopen_ok env (c_str (destination_file url toDestination)) = true →
  transfer env (c_str url)
  = (pre ++ XAbortRequest :: mid ++ XProgress t n ut un :: post, final) →
  ∃ w', downloadFile env url toDestination w = Some (false, w')
      ∧ downloadPercentage w' = -1
      ∧ files w' !! c_str (destination_file url toDestination) = None.
Proof.
  intros Hacc Hf Hopen Htr.
  destruct (downloadFile_aborted env url toDestination w pre mid t n ut un post final)
    as (w' & H1 & H2 & H3 & _); [done..|].
  by exists w'.
Qed.

Lemma C2_abort_before_next_checkpoint_witness :
  let d := Double.double_of_int in
  let env := env_of ([XRecv (lit "PK"); XProgress (d 10) (d 2) (d 0) (d 0); XAbortRequest;
                      XRecv (lit "abc"); XProgress (d 10) (d 5) (d 0) (d 0);
                      XRecv (lit "defgh")], CURLE_OK) None in
  ∃ w', downloadFile env (lit "https://example.com/pkg/app.zip") (lit "sdmc:/out/") fresh
        = Some (false, w')
      ∧ downloadPercentage w' = -1
      ∧ files w' !! lit "sdmc:/out/app.zip" = None.
Proof.
  intros d env.
  apply (C2_abort_before_next_checkpoint env (lit "https://example.com/pkg/app.zip")
           (lit "sdmc:/out/") fresh
           [XRecv (lit "PK"); XProgress (d 10) (d 2) (d 0) (d 0)]
           [XRecv (lit "abc")] (d 10) (d 5) (d 0) (d 0) [XRecv (lit "defgh")] CURLE_OK).
  - split; [vm_compute; reflexivity|]. split; [vm_compute; discriminate|].
    intros _. vm_compute. eexists. reflexivity.
  - vm_compute. discriminate.
  - reflexivity.
  - reflexivity.
Defined.

(** The check of lines 206-207 asks [ftell] about a stream that line 189 has
    closed: whether a transfer that ended with [CURLE_OK] is taken for an
    empty file depends on what [ftell] answers for a closed stream, not on
    the file. *)
Lemma download_with_ok env curl url destination w file w1 w2 :
  fopen env (c_str destination) w = (Some file, w1) →
  curl_easy_perform env (c_str url) file w1 = (CURLE_OK, w2) →
  download_with env curl url destination w
  = let w3 := fclose file (curl_easy_cleanup curl w2) in
    if ftell_closed env =? 0
    then (false, remove (c_str destination)
                   (logMessage (lit "Error downloading file: Empty file") w3))
    else (true, logMessage (lit "Download Complete!") w3).
Proof.
  intros Hopen Hperf. unfold download_with. rewrite Hopen, Hperf. simpl.
  by rewrite ftell_after_fclose.
Qed.

(** C1. The specification has it that a transfer that succeeds and leaves a
    file of zero bytes makes [downloadFile] log the empty-file error, delete
    the file and return [false]. Where [ftell] on a closed stream fails (-1, as POSIX has
    it) or answers anything but 0, the opposite happens for every such
    transfer: the result is [true], the empty file stays, and the last line
    of the log is the message of completion. *)
Theorem C1_empty_download_is_reported_complete env url toDestination w events :
  accepted url toDestination →
  failed_attempts env (curl_inits w) ≠ 3%nat →
  fopen_ok env (c_str (destination_file url toDestination)) = true →
  transfer env (c_str url) = (events, CURLE_OK) →
  delivers_nothing events →
  ftell_closed env ≠ 0 →
  ∃ w', downloadFile env url toDestination w = Some (true, w')
      ∧ files w' !! c_str (destination_file url toDestination) = Some []
      ∧ last (logged w') = Some (lit "Download Complete!").
Proof.
  intros Hacc Hf Hopen Htr Hev Htell. rewrite downloadFile_accepted by done.
  unfold download_to. set (w0 := createDirectory _ _).
  destruct (acquire_spec env w0)
    as (w1 & Hloop & _ & _ & _ & _ & _ & _ & _ & Hflag & _).
  change (curl_inits w0) with (curl_inits w) in *.
  change (abortDownload w0) with false in *.
  rewrite Hloop, decide_False by done.
  unfold download_with, fopen. rewrite Hopen.
  unfold curl_easy_perform. rewrite Htr.
  match goal with |- context [run_transfer events _ ?f ?w2] =>
    destruct (run_transfer_delivers_nothing events CURLE_OK f
                (c_str (destination_file url toDestination)) w2 0 Hev)
      as (w3 & -> & Hfile & _) end.
  { done. }
  { simpl. by rewrite lookup_insert_eq. }
  { simpl. by rewrite lookup_insert_eq. }
  simpl. rewrite ftell_after_fclose.
  destruct (ftell_closed env =? 0) eqn:E; [lia|].
  eexists. split; [reflexivity|]. simpl. split; [done|].
  by rewrite last_snoc.
Qed.

Lemma C1_empty_download_is_reported_complete_witness :
  let zero := S754_zero false in
  let env := env_of ([XProgress zero zero zero zero], CURLE_OK) None in
  ∃ w', downloadFile env (lit "https://example.com/pkg/app.zip") (lit "sdmc:/out/") fresh
        = Some (true, w')
      ∧ files w' !! lit "sdmc:/out/app.zip" = Some []
      ∧ last (logged w') = Some (lit "Download Complete!").
Proof.
  intros zero env.
  apply (C1_empty_download_is_reported_complete env (lit "https://example.com/pkg/app.zip")
           (lit "sdmc:/out/") fresh [XProgress zero zero zero zero]).
  - split; [vm_compute; reflexivity|]. split; [vm_compute; discriminate|].
    intros _. vm_compute. eexists. reflexivity.
  - vm_compute. discriminate.
  - reflexivity.
  - reflexivity.
  - repeat constructor.
  - vm_compute. discriminate.
Defined.

(** C3, as stated, fails: the callback that observes the flag leaves it set,
    and it still reads [true] when [downloadFile] has returned. *)
Lemma C3_counterexample :
  let zero := S754_zero false in
  (progressCallback zero zero zero zero (set_abortDownload true fresh)).1 = 1
  ∧ abortDownload (progressCallback zero zero zero zero (set_abortDownload true fresh)).2
    = true
  ∧ ∃ w', downloadFile (env_of ([XAbortRequest; XProgress zero zero zero zero], CURLE_OK) None)
            (lit "https://example.com/pkg/app.zip") (lit "sdmc:/out/") fresh
          = Some (false, w')
        ∧ abortDownload w' = true.
Proof.
  intros zero. split; [reflexivity|]. split; [reflexivity|].
  eexists. split; [vm_compute; reflexivity|]. reflexivity.
Qed.

(** C3, amended. The flag is reset in one place, the first line of
    [downloadFile]: whatever it held when the call began plays no part. The
    progress callback reads it and never writes it; once set, it stays set to
    the end of the transfer, and it still reads [true] when a call that was
    aborted returns. *)
Theorem C3_abort_flag_is_reset_at_start_only :
  (∀ env url toDestination w b,
     downloadFile env url toDestination (set_abortDownload b w)
     = downloadFile env url toDestination w)
  ∧ (∀ t n ut un w, abortDownload (progressCallback t n ut un w).2 = abortDownload w)
  ∧ (∀ events final file w,
       abortDownload w = true → abortDownload (run_transfer events final file w).2 = true)
  ∧ (∀ env url toDestination w pre mid t n ut un post final,
       accepted url toDestination →
       failed_attempts env (curl_inits w) ≠ 3%nat →
       fopen_ok env (c_str (destination_file url toDestination)) = true →
       transfer env (c_str url)
       = (pre ++ XAbortRequest :: mid ++ XProgress t n ut un :: post, final) →
       ∃ w', downloadFile env url toDestination w = Some (false, w')
           ∧ abortDownload w' = true).
Proof.
  split; [done|]. split; [apply progressCallback_abortDownload|].
  split; [intros; by apply run_transfer_abort_stays|].
  intros env url toDestination w pre mid t n ut un post final Hacc Hf Hopen Htr.
  destruct (downloadFile_aborted env url toDestination w pre mid t n ut un post final)
    as (w' & H1 & _ & _ & H4); [done..|].
  by exists w'.
Qed.

End TransferOutcome.

(** ** C6 and C7: the walk of an archive *)

Section ExtractFacts.

Context (env : Env) (toDestination : str).

Definition entry_name (entry : zip_entry) : str := c_str (d_name entry).

(** The path an entry is written to. *)
Definition entry_path (entry : zip_entry) : str :=
  sanitized_path toDestination (entry_name entry).

(** The name [fopen] is given for it: the path as a C string. *)
Definition entry_file (entry : zip_entry) : str := c_str (entry_path entry).

(** The entry is passed over by one of the [continue]s of lines 245-277: an
    empty name, a path that ends in three dots, a directory. *)
Definition entry_skipped (entry : zip_entry) : bool :=
  empty_name (d_name entry)
  || ends_with_dots (toDestination ++ entry_name entry)
  || bool_decide (back (entry_path entry) = Some slash).

(** The entry is not passed over, and it cannot be opened in the archive or
    its output file cannot be opened. *)
Definition entry_fails (entry : zip_entry) : bool :=
  negb (entry_skipped entry)
  && (negb (zf_open_ok entry) || negb (fopen_ok env (entry_file entry))).

(** What is logged for an entry that fails. *)
Definition failure_message (entry : zip_entry) : str :=
  if zf_open_ok entry
  then lit "Error opening output file: " ++ entry_path entry
  else lit "Error opening file in zip: " ++ entry_name entry.

(** The bytes the reads of an entry deliver before the first read that
    delivers nothing. *)
Fixpoint delivered (reads : list (list ascii)) : list ascii :=
  match reads with
  | [] => []
  | buffer :: rest => if decide (0 < length buffer)%nat then buffer ++ delivered rest else []
  end.

Lemma copy_loop_spec reads outputFile path : ∀ w pos contents,
  streams w !! outputFile = Some (path, pos) →
  files w !! path = Some contents →
  let w' := copy_loop reads outputFile w in
  files w' !! path = Some (contents ++ delivered reads)
  ∧ (∀ p, p ≠ path → files w' !! p = files w !! p)
  ∧ logged w' = logged w ∧ abortUnzip w' = abortUnzip w.
Proof.
  induction reads as [|buffer rest IH]; intros w pos contents Hs Hf; simpl.
  - by rewrite app_nil_r.
  - case_decide; simpl.
    2: { by rewrite app_nil_r. }
    unfold fwrite. rewrite Hs. simpl.
    match goal with |- context [copy_loop rest outputFile ?w1] =>
      destruct (IH w1 (pos + Z.of_nat (length buffer)) (contents ++ buffer))
        as (H1 & H2 & H3 & H4) end.
    { simpl. by rewrite lookup_insert_eq. }
    { simpl. rewrite Hf. simpl. by rewrite lookup_insert_eq. }
    split; [by rewrite H1, <- app_assoc|]. split; [|done].
    intros p Hp. rewrite H2 by done. simpl. by rewrite lookup_insert_ne.
Qed.

Lemma entry_path_nonempty entry :
  empty_name (d_name entry) = false → entry_path entry ≠ [].
Proof.
  intros H. unfold entry_path, sanitized_path. apply sanitized_nonempty.
  unfold entry_name. destruct (d_name entry) as [|c r]; [done|]. simpl in *.
  rewrite H. by destruct toDestination.
Qed.

(** One iteration, after the check of the abort flag: the new value of
    [success] and what has changed. *)
Lemma extract_entry_spec entry success w :
  ∃ w', extract_entry env toDestination entry success w
        = Some (success && negb (entry_fails entry), w')
    ∧ abortUnzip w' = abortUnzip w
    ∧ (entry_skipped entry = true → w' = w)
    ∧ (entry_fails entry = true
       → logged w' = logged w ++ [failure_message entry] ∧ files w' = files w)
    ∧ (entry_fails entry = false → logged w' = logged w)
    ∧ (entry_skipped entry = false → entry_fails entry = false
       → files w' !! entry_file entry = Some (delivered (zf_reads entry)))
    ∧ (∀ p, p ≠ entry_file entry → files w' !! p = files w !! p).
Proof.
  unfold extract_entry, entry_fails, entry_skipped, failure_message.
  fold (entry_name entry).
  destruct (empty_name (d_name entry)) eqn:Ee; simpl.
  { exists w. by rewrite andb_true_r. }
  destruct (ends_with_dots (toDestination ++ entry_name entry)) eqn:Ed; simpl.
  { exists w. by rewrite andb_true_r. }
  fold (sanitized_path toDestination (entry_name entry)). fold (entry_path entry).
  pose proof (entry_path_nonempty entry Ee) as Hne.
  rewrite (bool_decide_eq_false_2 (entry_path entry = [])) by done. simpl.
  destruct (bool_decide (back (entry_path entry) = Some slash)) eqn:Es; simpl.
  { exists w. by rewrite andb_true_r. }
  destruct (back (entry_path entry)) as [c|] eqn:Eb.
  2: { by apply last_None in Eb. }
  destruct (zf_open_ok entry); simpl.
  2: { eexists. split; [by rewrite andb_false_r|]. simpl. done. }
  unfold fopen. simpl. fold (entry_file entry).
  destruct (fopen_ok env (entry_file entry)) eqn:Eo; simpl.
  2: { eexists. split; [by rewrite andb_false_r|]. simpl. done. }
  match goal with |- context [copy_loop ?r ?h ?w1] =>
    destruct (copy_loop_spec r h (entry_file entry) w1 0 [])
      as (H1 & H2 & H3 & H4) end.
  { simpl. by rewrite lookup_insert_eq. }
  { simpl. by rewrite lookup_insert_eq. }
  eexists. split; [by rewrite andb_true_r|]. simpl.
  split; [done|]. split; [done|]. split; [done|]. split; [done|].
  split; [done|].
  intros p Hp. rewrite H2 by done. simpl. by rewrite lookup_insert_ne.
Qed.

End ExtractFacts.

Section WalkFacts.

Context (env : Env) (toDestination : str).

(** The entries whose iteration runs to its body: those that
    [zzip_dir_read] yields before the first check that finds the abort flag
    set. [flag] is the value of the flag at the start. *)
Fixpoint processed (flag : bool) (events : list unzip_event) : list zip_entry :=
  match events with
  | [] => []
  | ZAbortRequest :: rest => processed true rest
  | ZEntry entry :: rest => if flag then [] else entry :: processed flag rest
  end.

Lemma processed_walk entries : processed false (walk entries) = entries.
Proof. induction entries as [|e r IH]; simpl; [done|]. by rewrite IH. Qed.

(** The entry is written: not passed over, and both opens succeed. *)
Definition entry_written (entry : zip_entry) : Prop :=
  entry_skipped toDestination entry = false ∧ entry_fails env toDestination entry = false.

(** None of the entries of [l] is written to the path [p]. *)
Definition path_untouched (p : str) (l : list zip_entry) : Prop :=
  Forall (λ e, entry_written e → entry_file toDestination e ≠ p) l.

Lemma unzip_loop_spec events : ∀ success w,
  ∃ b w', unzip_loop env toDestination events success w = Some (b, w')
    ∧ b = success
          && forallb (λ e, negb (entry_fails env toDestination e))
               (processed (abortUnzip w) events)
    ∧ (∃ l, logged w' = logged w ++ l)
    ∧ (∀ e, e ∈ processed (abortUnzip w) events →
            entry_fails env toDestination e = true →
            failure_message toDestination e ∈ logged w')
    ∧ (∀ p, path_untouched p (processed (abortUnzip w) events) →
            files w' !! p = files w !! p)
    ∧ (∀ l1 e l2, processed (abortUnzip w) events = l1 ++ e :: l2 →
            entry_written e →
            path_untouched (entry_file toDestination e) l2 →
            files w' !! entry_file toDestination e = Some (delivered (zf_reads e))).
Proof.
  induction events as [|ev rest IH]; intros success w; simpl.
  - exists success, w. split; [done|]. split; [by rewrite andb_true_r|].
    split; [exists []; by rewrite app_nil_r|]. split; [by intros e H%elem_of_nil|].
    split; [done|]. intros [|] ? ? [=].
  - destruct ev as [entry|].
    2: { destruct (IH success (set_abortUnzip true w)) as (b & w' & H). by exists b, w'. }
    destruct (abortUnzip w) eqn:Hflag.
    { eexists _, _. split; [done|]. split; [by rewrite andb_true_r|]. simpl.
      split; [exists []; by rewrite app_nil_r|]. split; [by intros e H%elem_of_nil|].
      split; [done|]. intros [|] ? ? [=]. }
    destruct (extract_entry_spec env toDestination entry success w)
      as (w1 & -> & Hf1 & Hskip & Hfail & Hok & Hwritten & Hother).
    destruct (IH (success && negb (entry_fails env toDestination entry)) w1)
      as (b & w' & -> & -> & [l Hl] & Hlog & Hframe & Hfiles).
    rewrite Hf1, Hflag in *.
    eexists _, _. split; [done|]. split; [simpl; by rewrite andb_assoc|].
    assert (∃ l0, logged w1 = logged w ++ l0) as [l0 Hl0].
    { destruct (entry_fails env toDestination entry) eqn:E.
      - destruct (Hfail eq_refl) as [-> _]. by eexists.
      - rewrite Hok by done. exists []. by rewrite app_nil_r. }
    assert (∀ p, path_untouched p [entry] → files w1 !! p = files w !! p) as Hstep.
    { intros p [Hp _]%Forall_cons.
      destruct (entry_skipped toDestination entry) eqn:Es; [by rewrite Hskip|].
      destruct (entry_fails env toDestination entry) eqn:Ef.
      - pose proof (Hfail eq_refl) as [_ E]. by rewrite E.
      - apply Hother. intros ->. by apply Hp. }
    split; [exists (l0 ++ l); by rewrite Hl, Hl0, app_assoc|].
    split; [|split].
    + intros e [->|He]%elem_of_cons Hfe.
      * rewrite Hl. pose proof (Hfail Hfe) as [E _]. rewrite E.
        rewrite !elem_of_app, elem_of_cons. auto.
      * by apply Hlog.
    + intros p [Hp Hrest]%Forall_cons.
      rewrite Hframe by done. apply Hstep. by apply Forall_cons.
    + intros [|e0 l1] e l2 Heq [Hs Hfe] Hun; simplify_eq/=.
      * rewrite Hframe by done. by apply Hwritten.
      * by eapply Hfiles.
Qed.

End WalkFacts.

Section WalkResults.

Lemma none_fails_iff (f : zip_entry → bool) l :
  forallb (λ e, negb (f e)) l = true ↔ Forall (λ e, f e = false) l.
Proof.
  induction l as [|e r IH]; simpl.
  - split; [by constructor|done].
  - rewrite andb_true_iff, Forall_cons, IH, negb_true_iff. done.
Qed.


(** Three entries, the second of which cannot be opened in the archive: the
    result is [false], the failure is logged, the first and the third are
    extracted. *)
Example partial_failure_example :
  let entries := [mkEntry (lit "readme.txt") true [lit "hello"];
                  mkEntry (lit "broken.bin") false [];
                  mkEntry (lit "bin/tool") true [lit "x"; lit "yz"]] in
  ∃ w', unzipFile (env_of ([], 0) (Some (walk entries))) (lit "sdmc:/out/app.zip")
          (lit "sdmc:/out/app/") fresh = Some (false, w')
      ∧ logged w' = [lit "Error opening file in zip: broken.bin"]
      ∧ files w' !! lit "sdmc:/out/app/readme.txt" = Some (lit "hello")
      ∧ files w' !! lit "sdmc:/out/app/broken.bin" = None
      ∧ files w' !! lit "sdmc:/out/app/bin/tool" = Some (lit "xyz").
Proof. eexists. split; [vm_compute; reflexivity|]. by vm_compute. Qed.

Lemma unzip_loop_app_walk env toDestination quiet rest : ∀ success w,
  abortUnzip w = false →
  ∃ b w1, unzip_loop env toDestination (walk quiet) success w = Some (b, w1)
    ∧ abortUnzip w1 = false
    ∧ unzip_loop env toDestination (walk quiet ++ rest) success w
      = unzip_loop env toDestination rest b w1.
Proof.
  induction quiet as [|e quiet IH]; intros success w Hflag; simpl.
  - by eexists _, _.
  - rewrite Hflag.
    destruct (extract_entry_spec env toDestination e success w)
      as (w1 & -> & Hf1 & _).
    apply IH. by rewrite Hf1.
Qed.

(** Is there an entry among the events? *)
Definition has_entry (events : list unzip_event) : bool :=
  existsb (λ ev, match ev with ZEntry _ => true | ZAbortRequest => false end) events.

Lemma unzip_loop_abort_pending env toDestination rest success : ∀ w,
  unzip_loop env toDestination rest success (set_abortUnzip true w)
  = Some (success, set_abortUnzip (negb (has_entry rest)) w).
Proof.
  induction rest as [|ev rest IH]; intros w; simpl; [done|].
  destruct ev as [entry|]; simpl; [done|].
  change (set_abortUnzip true (set_abortUnzip true w)) with (set_abortUnzip true w).
  apply IH.
Qed.

(** C7. The abort flag is looked at in one place, on top of an iteration,
    when [zzip_dir_read] has yielded the next entry. When a request has
    arrived and an entry follows, the check made for that entry resets the
    flag and ends the walk: that entry and those after it are not touched, and
    the result and the world are those of the walk of the entries before the
    request, with the flag [false]. The result is [true] exactly when none of
    those entries failed: the abort itself does not count as a failure. When
    no entry follows the request, nothing looks at the flag and it stays
    set. *)
Theorem C7_abort_on_top_of_iteration env zipFilePath toDestination w quiet n rest :
  zzip_dir env (c_str zipFilePath)
  = Some (walk quiet ++ replicate (S n) ZAbortRequest ++ rest) →
  ∃ b w1,
    unzip_loop env toDestination (walk quiet) true (set_abortUnzip false w) = Some (b, w1)
    ∧ unzipFile env zipFilePath toDestination w
      = Some (b, set_abortUnzip (negb (has_entry rest)) w1)
    ∧ abortUnzip w1 = false
    ∧ (b = true ↔ Forall (λ e, entry_fails env toDestination e = false) quiet).
Proof.
  intros Hz. unfold unzipFile. rewrite Hz.
  destruct (unzip_loop_app_walk env toDestination quiet
              (replicate (S n) ZAbortRequest ++ rest)
              true (set_abortUnzip false w) eq_refl)
    as (b & w1 & Hquiet & Hflag & ->).
  exists b, w1. split; [done|]. split.
  { simpl. rewrite unzip_loop_abort_pending. f_equal. f_equal.
    clear. induction n as [|n IH]; simpl; [done|]. exact IH. }
  split; [done|].
  destruct (unzip_loop_spec env toDestination (walk quiet) true (set_abortUnzip false w))
    as (b' & w' & Hquiet' & Hb & _).
  rewrite Hquiet in Hquiet'. injection Hquiet' as <- <-.
  simpl in Hb. rewrite processed_walk in Hb. rewrite Hb. apply none_fails_iff.
Qed.

Lemma C7_abort_on_top_of_iteration_witness :
  let first := mkEntry (lit "readme.txt") true [lit "hello"] in
  let second := mkEntry (lit "bin/tool") true [lit "x"] in
  let env := env_of ([], 0) (Some [ZEntry first; ZAbortRequest; ZEntry second]) in
  ∃ w', unzipFile env (lit "sdmc:/out/app.zip") (lit "sdmc:/out/app/") fresh = Some (true, w')
      ∧ abortUnzip w' = false
      ∧ files w' !! lit "sdmc:/out/app/readme.txt" = Some (lit "hello")
      ∧ files w' !! lit "sdmc:/out/app/bin/tool" = None.
Proof.
  intros first second env.
  destruct (C7_abort_on_top_of_iteration env (lit "sdmc:/out/app.zip") (lit "sdmc:/out/app/")
              fresh [first] 0 [ZEntry second] eq_refl)
    as (b & w1 & Hquiet & Hunzip & _ & _).
  vm_compute in Hquiet. injection Hquiet as <- <-.
  eexists. split; [exact Hunzip|]. by vm_compute.
Defined.

End WalkResults.

(** ** IEEE doubles: rounding to nearest does not step over a bound *)

Import Double.

Section Rounding.

(** ** Binary digits *)

Lemma digits2_pos_bounds p :
  2 ^ (Z.pos (digits2_pos p) - 1) ≤ Z.pos p < 2 ^ Z.pos (digits2_pos p).
Proof.
  induction p as [p IH|p IH|]; simpl digits2_pos.
  - rewrite Pos2Z.inj_succ.
    replace (Z.succ (Z.pos (digits2_pos p)) - 1) with (Z.succ (Z.pos (digits2_pos p) - 1)) by lia.
    rewrite !Z.pow_succ_r by lia. lia.
  - rewrite Pos2Z.inj_succ.
    replace (Z.succ (Z.pos (digits2_pos p)) - 1) with (Z.succ (Z.pos (digits2_pos p) - 1)) by lia.
    rewrite !Z.pow_succ_r by lia. lia.
  - simpl. lia.
Qed.

Lemma Zdigits2_nonneg m : 0 ≤ m → 0 ≤ Zdigits2 m.
Proof. destruct m; simpl; lia. Qed.

Lemma Zdigits2_upper m : 0 ≤ m → m < 2 ^ Zdigits2 m.
Proof.
  destruct m as [|p|p]; simpl; [lia| |lia]. intros _. apply digits2_pos_bounds.
Qed.

Lemma Zdigits2_lower m : 0 < m → 2 ^ (Zdigits2 m - 1) ≤ m.
Proof.
  destruct m as [|p|p]; simpl; [lia| |lia]. intros _. apply digits2_pos_bounds.
Qed.

(** A number below [2 ^ k] has at most [k] digits. *)
Lemma Zdigits2_le_of_lt m k : 0 ≤ m → 0 ≤ k → m < 2 ^ k → Zdigits2 m ≤ k.
Proof.
  intros Hm Hk Hlt.
  destruct (Z.eq_dec m 0) as [->|Hne]; [simpl; lia|].
  pose proof (Zdigits2_lower m ltac:(lia)) as Hlow.
  destruct (Z_le_gt_dec (Zdigits2 m) k) as [|Hgt]; [done|].
  assert (2 ^ k ≤ 2 ^ (Zdigits2 m - 1)) by (apply Z.pow_le_mono_r; lia).
  lia.
Qed.


(** ** Shifting right with the round and sticky bits *)

(** Something was lost to the right of the mantissa. *)
Definition inexact (mrs : shr_record) : bool := shr_r mrs || shr_s mrs.

Lemma loc_of_shr_record_exact mrs :
  loc_of_shr_record mrs = loc_Exact ↔ inexact mrs = false.
Proof. destruct mrs as [m [|] [|]]; simpl; unfold inexact; simpl; split; congruence. Qed.

Lemma shr_record_of_loc_m m l : shr_m (shr_record_of_loc m l) = m.
Proof. by destruct l as [|[| |]]. Qed.

Lemma shr_record_of_loc_exact m l :
  inexact (shr_record_of_loc m l) = false ↔ l = loc_Exact.
Proof. destruct l as [|[| |]]; unfold inexact; simpl; split; congruence. Qed.

Lemma shr_1_spec mrs :
  0 ≤ shr_m mrs →
  shr_m (shr_1 mrs) = shr_m mrs / 2
  ∧ inexact (shr_1 mrs) = Z.odd (shr_m mrs) || inexact mrs.
Proof.
  destruct mrs as [m r s]. unfold inexact. simpl. intros Hm.
  destruct m as [|[p|p|]|p]; simpl; try lia.
  - done.
  - split; [|done]. rewrite Pos2Z.inj_xI.
    apply Z.div_unique with 1; lia.
  - split; [|done]. rewrite Pos2Z.inj_xO.
    apply Z.div_unique with 0; lia.
  - done.
Qed.

(** [iter_pos f p] applies [f] as many times as [p] says. *)
Lemma iter_pos_invariant {A} (f : A → A) p : ∀ (P : nat → A → Prop) x,
  P 0%nat x → (∀ k y, P k y → P (S k) (f y)) → P (Pos.to_nat p) (SpecFloat.iter_pos f p x).
Proof.
  induction p as [p IH|p IH|]; intros P x H0 Hstep; simpl.
  - rewrite Pos2Nat.inj_xI.
    replace (S (2 * Pos.to_nat p)) with (Pos.to_nat p + (Pos.to_nat p + 1))%nat by lia.
    apply (IH (λ k y, P (k + (Pos.to_nat p + 1))%nat y)).
    + apply (IH (λ k y, P (k + 1)%nat y)).
      * simpl. by apply Hstep.
      * intros k y Hy. simpl. by apply Hstep.
    + intros k y Hy. simpl. by apply Hstep.
  - rewrite Pos2Nat.inj_xO.
    replace (2 * Pos.to_nat p)%nat with (Pos.to_nat p + (Pos.to_nat p + 0))%nat by lia.
    apply (IH (λ k y, P (k + (Pos.to_nat p + 0))%nat y)).
    + apply (IH (λ k y, P (k + 0)%nat y)).
      * simpl. done.
      * intros k y Hy. simpl. by apply Hstep.
    + intros k y Hy. simpl. by apply Hstep.
  - by apply Hstep.
Qed.

Lemma even_div_mod m k :
  0 ≤ m → 0 ≤ k →
  (Z.odd (m / 2 ^ k) = false ∧ m mod 2 ^ k = 0) ↔ m mod 2 ^ (k + 1) = 0.
Proof.
  intros Hm Hk.
  assert (0 < 2 ^ k) as Hpos by (apply Z.pow_pos_nonneg; lia).
  rewrite Z.pow_add_r, Z.pow_1_r by lia.
  pose proof (Z.div_mod m (2 ^ k) ltac:(lia)) as Hdm.
  pose proof (Z.mod_pos_bound m (2 ^ k) Hpos) as Hb.
  set (q := m / 2 ^ k) in *. set (r := m mod 2 ^ k) in *.
  pose proof (Zodd_even_bool q) as Hoe.
  pose proof (Z.div_mod q 2 ltac:(lia)) as Hq.
  pose proof (Z.mod_pos_bound q 2 ltac:(lia)) as Hqb.
  rewrite Zodd_mod in *.
  split.
  - intros [Ho Hr].
    assert (q mod 2 = 0) as Hq0.
    { destruct (Z.eq_dec (q mod 2) 0) as [|Hn]; [done|].
      assert (q mod 2 = 1) as E by lia. rewrite E in Ho. done. }
    rewrite Hdm, Hr, Z.add_0_r.
    rewrite Hq, Hq0, Z.add_0_r.
    replace (2 ^ k * (2 * (q / 2))) with ((q / 2) * (2 ^ k * 2)) by ring.
    apply Z.mod_mul. lia.
  - intros H0.
    apply Z.mod_divide in H0 as [c Hc]; [|lia].
    assert (m = 2 ^ k * (2 * c)) as Hm2 by lia.
    assert (r = 0 ∧ q = 2 * c) as [Hr0 Hq2].
    { assert (2 ^ k * (q - 2 * c) + r = 0) as Heq by lia.
      assert (q - 2 * c = 0) by nia. lia. }
    split; [|done].
    rewrite Hq2. replace (2 * c) with (c * 2) by ring. by rewrite Z.mod_mul.
Qed.

(** [n] steps to the right: the mantissa is divided by [2 ^ n], and nothing
    is lost exactly when nothing had been lost before and the bits shifted
    out are all zero. *)
Lemma iter_shr_1_spec p mrs :
  0 ≤ shr_m mrs →
  shr_m (SpecFloat.iter_pos shr_1 p mrs) = shr_m mrs / 2 ^ Z.pos p
  ∧ (inexact (SpecFloat.iter_pos shr_1 p mrs) = false
     ↔ inexact mrs = false ∧ shr_m mrs mod 2 ^ Z.pos p = 0).
Proof.
  intros Hm.
  pose proof (iter_pos_invariant shr_1 p
    (λ k y, shr_m y = shr_m mrs / 2 ^ Z.of_nat k
            ∧ (inexact y = false
               ↔ inexact mrs = false ∧ shr_m mrs mod 2 ^ Z.of_nat k = 0)) mrs) as H.
  cbv beta in H. rewrite positive_nat_Z in H. apply H; clear H.
  - simpl. rewrite Z.div_1_r, Z.mod_1_r. tauto.
  - intros k y [Hy Hex].
    assert (0 ≤ shr_m y).
    { rewrite Hy. apply Z.div_pos; [done|]. apply Z.pow_pos_nonneg; lia. }
    destruct (shr_1_spec y) as [H1 H2]; [done|].
    rewrite H1, H2, Hy. rewrite Nat2Z.inj_succ, <- Z.add_1_r.
    split.
    + rewrite Z.pow_add_r, Z.pow_1_r by lia. rewrite Z.div_div; [done| |lia].
      apply Z.pow_nonzero; lia. 
    + rewrite orb_false_iff, Hex, <- even_div_mod by lia. tauto.
Qed.

Lemma pow2_pos k : 0 ≤ k → 0 < 2 ^ k.
Proof. intros. apply Z.pow_pos_nonneg; lia. Qed.

Lemma shr_spec m l e n :
  0 ≤ m →
  let k := Z.max 0 n in
  (shr (shr_record_of_loc m l) e n).2 = e + k
  ∧ shr_m (shr (shr_record_of_loc m l) e n).1 = m / 2 ^ k
  ∧ (inexact (shr (shr_record_of_loc m l) e n).1 = false ↔ l = loc_Exact ∧ m mod 2 ^ k = 0).
Proof.
  intros Hm k. unfold shr, k. destruct n as [|p|p]; simpl fst; simpl snd.
  - rewrite Z.max_id, Z.add_0_r, Z.pow_0_r, Z.div_1_r, Z.mod_1_r.
    rewrite shr_record_of_loc_m, shr_record_of_loc_exact. tauto.
  - rewrite Z.max_r by lia.
    destruct (iter_shr_1_spec p (shr_record_of_loc m l)) as [H1 H2].
    { by rewrite shr_record_of_loc_m. }
    rewrite shr_record_of_loc_m in *. rewrite shr_record_of_loc_exact in H2. done.
  - rewrite Z.max_l by lia. rewrite Z.add_0_r, Z.pow_0_r, Z.div_1_r, Z.mod_1_r.
    rewrite shr_record_of_loc_m, shr_record_of_loc_exact. tauto.
Qed.

Lemma round_nearest_even_bounds m l :
  m ≤ round_nearest_even m l ≤ m + 1
  ∧ (l = loc_Exact → round_nearest_even m l = m).
Proof.
  destruct l as [|[| |]]; simpl; try (split; [lia|done]).
  destruct (Z.even m); split; (lia || done).
Qed.

Lemma fexp_mono a b : a ≤ b → fexp prec emax a ≤ fexp prec emax b.
Proof. unfold fexp, emin. lia. Qed.

Lemma Zdigits2_mono a b : 0 ≤ a ≤ b → Zdigits2 a ≤ Zdigits2 b.
Proof.
  intros [Ha Hab]. apply Zdigits2_le_of_lt; [done| |].
  - apply Zdigits2_nonneg. lia.
  - pose proof (Zdigits2_upper b ltac:(lia)). lia.
Qed.

(** The shift that brings [mx * 2 ^ ex] to the exponent of its format. *)
Definition shift_of (mx ex : Z) : Z :=
  Z.max 0 (fexp prec emax (Zdigits2 mx + ex) - ex).

(** First half of [binary_round_aux]: a value that is at most [b] units of
    the target exponent, and below [b] of them when it is not exact, rounds
    to at most [b] units. *)
Lemma round_first_stage mx ex lx b :
  0 ≤ mx →
  mx ≤ b * 2 ^ shift_of mx ex →
  (lx ≠ loc_Exact → mx < b * 2 ^ shift_of mx ex) →
  (shr_fexp prec emax mx ex lx).2 = ex + shift_of mx ex
  ∧ 0 ≤ round_nearest_even (shr_m (shr_fexp prec emax mx ex lx).1)
          (loc_of_shr_record (shr_fexp prec emax mx ex lx).1) ≤ b.
Proof.
  intros Hmx H1 H2. unfold shr_fexp.
  destruct (shr_spec mx lx ex (fexp prec emax (Zdigits2 mx + ex) - ex) Hmx)
    as (He & Hm & Hex).
  fold (shift_of mx ex) in He, Hm, Hex.
  set (r := shr _ _ _) in *. set (n := shift_of mx ex) in *.
  assert (0 ≤ n) as Hn by (unfold n, shift_of; lia).
  pose proof (pow2_pos n Hn) as Hp.
  split; [done|].
  pose proof (round_nearest_even_bounds (shr_m r.1) (loc_of_shr_record r.1)) as [Hb Hexact].
  pose proof (Z.div_mod mx (2 ^ n) ltac:(lia)) as Hdm.
  pose proof (Z.mod_pos_bound mx (2 ^ n) Hp) as Hmod.
  rewrite <- Hm in Hdm.
  assert (0 ≤ shr_m r.1) by (rewrite Hm; apply Z.div_pos; lia).
  split; [lia|].
  destruct (inexact r.1) eqn:Ei.
  - assert (shr_m r.1 < b); [|lia].
    destruct (Z.eq_dec (mx mod 2 ^ n) 0) as [Hz|Hnz].
    + assert (lx ≠ loc_Exact) as Hl.
      { intros Hl. assert (true = false) by (apply Hex; done). congruence. }
      specialize (H2 Hl). nia.
    + nia.
  - rewrite Hexact by (by apply loc_of_shr_record_exact). nia.
Qed.

(** [binary_round_aux] on such a value: zero, or a finite number of at most
    [b] units, unless the exponent overflows. *)
Lemma binary_round_aux_upper mx ex lx b :
  0 ≤ mx →
  mx ≤ b * 2 ^ shift_of mx ex →
  (lx ≠ loc_Exact → mx < b * 2 ^ shift_of mx ex) →
  Z.max (ex + shift_of mx ex) (fexp prec emax (Zdigits2 b + (ex + shift_of mx ex)))
    ≤ emax - prec →
  match binary_round_aux prec emax false mx ex lx with
  | S754_zero s => s = false
  | S754_finite s m e =>
      s = false ∧ ex + shift_of mx ex ≤ e
      ∧ Z.pos m * 2 ^ (e - (ex + shift_of mx ex)) ≤ b
  | _ => False
  end.
Proof.
  intros Hmx H1 H2 Hov. unfold binary_round_aux.
  destruct (round_first_stage mx ex lx b Hmx H1 H2) as [He [Hm0 Hmb]].
  destruct (shr_fexp prec emax mx ex lx) as [mrs' e'] eqn:E1. simpl in He, Hm0, Hmb.
  set (m2 := round_nearest_even _ _) in *. subst e'.
  set (E := ex + shift_of mx ex) in *.
  unfold shr_fexp.
  destruct (shr_spec m2 loc_Exact E (fexp prec emax (Zdigits2 m2 + E) - E) Hm0)
    as (He2 & Hm3 & _).
  destruct (shr _ _ _) as [mrs'' e''] eqn:E2. simpl in He2, Hm3.
  set (n2 := Z.max 0 _) in *.
  assert (0 ≤ n2) as Hn2 by (unfold n2; lia).
  pose proof (pow2_pos n2 Hn2) as Hp.
  pose proof (Z.div_mod m2 (2 ^ n2) ltac:(lia)) as Hdm.
  pose proof (Z.mod_pos_bound m2 (2 ^ n2) Hp) as Hmod.
  rewrite <- Hm3 in Hdm.
  assert (0 ≤ shr_m mrs'') by (rewrite Hm3; apply Z.div_pos; lia).
  destruct (shr_m mrs'') as [|m|m] eqn:Em; [done| |lia].
  assert (e'' ≤ emax - prec) as Hle.
  { pose proof (fexp_mono (Zdigits2 m2 + E) (Zdigits2 b + E)) as Hf.
    pose proof (Zdigits2_mono m2 b ltac:(lia)). unfold n2 in He2. lia. }
  apply Z.leb_le in Hle. rewrite Hle.
  split; [done|]. split; [lia|].
  replace (e'' - E) with n2 by lia. nia.
Qed.

(** ** Order and division of valid doubles *)

Definition emin : Z := -1074.

(** The value of a finite double, in units of [2 ^ emin]. *)
Definition units (m : positive) (e : Z) : Z := Z.pos m * 2 ^ (e - emin).

(** Zero, or a positive finite double that is at most 1. *)
Definition at_most_one (x : double) : Prop :=
  match x with
  | S754_zero s => s = false
  | S754_finite s m e => s = false ∧ e ≤ 0 ∧ Z.pos m ≤ 2 ^ (- e)
  | _ => False
  end.

(** Zero, or a positive finite double that is at most 100. *)
Definition at_most_100 (x : double) : Prop :=
  match x with
  | S754_zero s => s = false
  | S754_finite s m e =>
      s = false ∧ if e <=? 0 then Z.pos m ≤ 100 * 2 ^ (- e) else Z.pos m * 2 ^ e ≤ 100
  | _ => False
  end.

Lemma bounded_facts m e :
  bounded prec emax m e = true →
  emin ≤ e ≤ emax - prec
  ∧ Z.pos (digits2_pos m) ≤ prec
  ∧ (e = emin ∨ Z.pos (digits2_pos m) = prec).
Proof.
  unfold bounded, canonical_mantissa, fexp, SpecFloat.emin, emin, prec, emax.
  intros [H1 H2]%andb_true_iff. apply Z.eqb_eq in H1. apply Z.leb_le in H2. lia.
Qed.

Lemma leb_finite_units mn en mt et :
  bounded prec emax mn en = true → bounded prec emax mt et = true →
  leb (S754_finite false mn en) (S754_finite false mt et) = true →
  units mn en ≤ units mt et.
Proof.
  intros (Hen & Hdn & Hcn)%bounded_facts (Het & Hdt & Hct)%bounded_facts.
  unfold leb, SFleb, SFcompare, units, prec, emin in *.
  pose proof (digits2_pos_bounds mn) as [_ Hn].
  pose proof (digits2_pos_bounds mt) as [Ht _].
  destruct (Z.compare_spec en et) as [->|Hlt|Hgt].
  - rewrite Pos.compare_cont_spec. simpl.
    destruct (Pos.compare_spec mn mt) as [->|H|H]; [lia| |done]. intros _.
    assert (0 < 2 ^ (et - -1074)) by (apply pow2_pos; lia).
    apply Z.mul_le_mono_nonneg_r; lia.
  - intros _.
    assert (Z.pos (digits2_pos mt) = 53) as Hd by lia. rewrite Hd in Ht.
    assert (Z.pos mn < 2 ^ 53).
    { eapply Z.lt_le_trans; [exact Hn|]. apply Z.pow_le_mono_r; lia. }
    replace (et - -1074) with ((en - -1074) + (et - en)) by lia.
    rewrite Z.pow_add_r by lia.
    assert (0 < 2 ^ (en - -1074)) by (apply pow2_pos; lia).
    assert (2 ^ 1 ≤ 2 ^ (et - en)) by (apply Z.pow_le_mono_r; lia).
    change (2 ^ (53 - 1)) with 4503599627370496 in Ht.
    change (2 ^ 53) with 9007199254740992 in *. change (2 ^ 1) with 2 in *.
    assert (Z.pos mn ≤ 2 * Z.pos mt) as Hmm by lia.
    generalize dependent (2 ^ (en - -1074)). generalize dependent (2 ^ (et - en)).
    intros c Hc a Ha.
    apply Z.le_trans with (2 * Z.pos mt * a); nia.
  - done.
Qed.

Lemma new_location_exact n r : new_location n r = loc_Exact ↔ r = 0.
Proof.
  unfold new_location, new_location_even, new_location_odd.
  destruct (Z.even n); destruct (Z.eqb_spec r 0); split; try done; congruence.
Qed.

Lemma Zdigits2_pow2 k : 0 ≤ k → Zdigits2 (2 ^ k) ≤ k + 1.
Proof.
  intros Hk. apply Zdigits2_le_of_lt; [|lia|].
  - pose proof (pow2_pos k Hk). lia.
  - apply Z.pow_lt_mono_r; lia.
Qed.

(** The quotient of two positive valid doubles, the first at most the second,
    is at most 1: rounding to nearest does not step over 1. *)
Lemma div_at_most_one mn en mt et :
  bounded prec emax mn en = true → bounded prec emax mt et = true →
  units mn en ≤ units mt et →
  at_most_one (div (S754_finite false mn en) (S754_finite false mt et)).
Proof.
  intros Hbn Hbt Hle.
  pose proof Hbn as (Hen & Hdn & _)%bounded_facts.
  pose proof Hbt as (Het & Hdt & _)%bounded_facts.
  unfold units, emin, prec, emax in *.
  unfold div, SFdiv, SFdiv_core_binary. simpl xorb.
  set (d1 := Zdigits2 (Z.pos mn)). set (d2 := Zdigits2 (Z.pos mt)).
  set (e' := Z.min (fexp prec emax (d1 + en - (d2 + et))) (en - et)).
  set (s := en - et - e').
  pose proof (Zdigits2_lower (Z.pos mn) ltac:(lia)) as Hl1. fold d1 in Hl1.
  pose proof (Zdigits2_upper (Z.pos mt) ltac:(lia)) as Hu2. fold d2 in Hu2.
  assert (0 < d1 ∧ 0 < d2) as [Hd1 Hd2] by (unfold d1, d2; simpl; lia).
  (* the magnitudes: d1 + en <= d2 + et *)
  assert (d1 + en ≤ d2 + et) as Hmag.
  { destruct (Z_le_gt_dec (d1 + en) (d2 + et)) as [|Hgt]; [done|exfalso].
    assert (2 ^ (d2 + (et - -1074)) ≤ 2 ^ (d1 - 1 + (en - -1074)))
      by (apply Z.pow_le_mono_r; lia).
    rewrite !Z.pow_add_r in H by lia.
    assert (0 < 2 ^ (et - -1074)) by (apply pow2_pos; lia).
    assert (0 < 2 ^ (en - -1074)) by (apply pow2_pos; lia).
    nia. }
  assert (e' ≤ -53) as He' by (unfold e', fexp, SpecFloat.emin, prec, emax; lia).
  assert (0 ≤ s) as Hs by (unfold s, e'; lia).
  set (m' := match s with Z.pos _ => Z.shiftl (Z.pos mn) s | 0 => Z.pos mn | Z.neg _ => 0 end).
  assert (m' = Z.pos mn * 2 ^ s) as Hm'.
  { unfold m'. destruct s as [|p|p] eqn:Es; [simpl; lia| |lia].
    by rewrite Z.shiftl_mul_pow2. }
  pose proof (Z_div_mod m' (Z.pos mt) ltac:(lia)) as Hdiv.
  destruct (Z.div_eucl m' (Z.pos mt)) as [q r]. destruct Hdiv as [Hqr Hr].
  (* mn * 2^s <= mt * 2^(-e') *)
  assert (Z.pos mn * 2 ^ s ≤ Z.pos mt * 2 ^ (- e')) as Hval.
  { assert (0 < 2 ^ (et - -1074)) by (apply pow2_pos; lia).
    assert (0 < 2 ^ (en - -1074)) by (apply pow2_pos; lia).
    assert (0 < 2 ^ s) by (apply pow2_pos; lia).
    assert (0 < 2 ^ (- e')) by (apply pow2_pos; lia).
    assert (2 ^ s * 2 ^ (et - -1074) = 2 ^ (- e') * 2 ^ (en - -1074)) as Hpow.
    { rewrite <- !Z.pow_add_r by lia. f_equal; unfold s; lia. }
    nia. }
  assert (0 < 2 ^ (- e')) as Hpe by (apply pow2_pos; lia).
  assert (0 ≤ q) as Hq0 by nia.
  assert (q ≤ 2 ^ (- e')) as Hq1 by nia.
  assert (r ≠ 0 → q < 2 ^ (- e')) as Hq2 by (intros; nia).
  (* the exponent after the shift *)
  set (n := shift_of q e').
  assert (0 ≤ n ∧ e' + n ≤ -52) as [Hn HE].
  { unfold n, shift_of. split; [lia|].
    assert (Zdigits2 q ≤ - e' + 1).
    { apply Zdigits2_le_of_lt; [done|lia|].
      rewrite Z.pow_add_r, Z.pow_1_r by lia. lia. }
    unfold fexp, SpecFloat.emin, prec, emax. lia. }
  set (b := 2 ^ (- (e' + n))).
  assert (b * 2 ^ n = 2 ^ (- e')) as Hb.
  { unfold b. rewrite <- Z.pow_add_r by lia. f_equal; lia. }
  pose proof (binary_round_aux_upper q e' (new_location (Z.pos mt) r) b Hq0) as Hround.
  fold n in Hround. rewrite Hb in Hround.
  specialize (Hround Hq1).
  assert (new_location (Z.pos mt) r ≠ loc_Exact → q < 2 ^ (- e')) as Hloc.
  { intros Hloc. apply Hq2. intros ->. apply Hloc. by apply new_location_exact. }
  assert ((e' + n) `max` fexp prec emax (Zdigits2 b + (e' + n)) ≤ emax - prec) as Hov.
  { pose proof (Zdigits2_pow2 (- (e' + n)) ltac:(lia)) as Hdb. fold b in Hdb.
    unfold fexp, SpecFloat.emin, prec, emax. lia. }
  specialize (Hround Hloc Hov).
  destruct (binary_round_aux prec emax false q e' (new_location (Z.pos mt) r))
    as [sz| |  |sz mz ez] eqn:Er; simpl; try done.
  destruct Hround as (-> & Hez & Hmz). split; [done|].
  assert (0 < 2 ^ (ez - (e' + n))) by (apply pow2_pos; lia).
  assert (0 < b) by (apply pow2_pos; lia).
  assert (ez ≤ 0) as Hez0.
  { destruct (Z_le_gt_dec ez 0) as [|Hgt]; [done|exfalso].
    assert (2 ^ (- (e' + n) + 1) ≤ 2 ^ (ez - (e' + n))) as Hp
      by (apply Z.pow_le_mono_r; lia).
    rewrite Z.pow_add_r, Z.pow_1_r in Hp by lia. fold b in Hp. nia. }
  split; [done|].
  assert (b = 2 ^ (- ez) * 2 ^ (ez - (e' + n))) as Hbb.
  { unfold b. rewrite <- Z.pow_add_r by lia. f_equal; lia. }
  assert (0 < 2 ^ (- ez)) by (apply pow2_pos; lia).
  rewrite Hbb in Hmz. nia.
Qed.

(** ** Times 100, rounded, as an [int] *)

Lemma double_of_int_100 : double_of_int 100 = S754_finite false 7036874417766400 (-46).
Proof. reflexivity. Qed.

Lemma mul_100_at_most_100 x :
  at_most_one x → at_most_100 (mul x (double_of_int 100)).
Proof.
  rewrite double_of_int_100.
  destruct x as [s| | |s m e]; simpl; try done.
  { intros ->. done. }
  intros (-> & He & Hm). unfold mul, SFmul. simpl xorb.
  set (M := 7036874417766400%positive).
  set (mx := Z.pos (m * M)). set (ex := e + -46).
  assert (mx = Z.pos m * 7036874417766400) as Hmx by (unfold mx, M; lia).
  assert (0 < 2 ^ (- e)) as Hpe by (apply pow2_pos; lia).
  assert (2 ^ (- ex) = 70368744177664 * 2 ^ (- e)) as Hpex.
  { unfold ex. replace (- (e + -46)) with (46 + - e) by lia.
    rewrite Z.pow_add_r by lia. done. }
  assert (mx ≤ 100 * 2 ^ (- ex)) as Hval by (rewrite Hpex; nia).
  set (n := shift_of mx ex).
  assert (0 ≤ n ∧ ex + n ≤ -46) as [Hn HE].
  { unfold n, shift_of. split; [lia|].
    assert (Zdigits2 mx ≤ 7 - ex).
    { apply Zdigits2_le_of_lt; [lia|lia|].
      replace (7 - ex) with (7 + - ex) by lia. rewrite Z.pow_add_r by lia.
      change (2 ^ 7) with 128. assert (0 < 2 ^ (- ex)) by (apply pow2_pos; lia). lia. }
    unfold fexp, SpecFloat.emin, prec, emax. lia. }
  set (b := 100 * 2 ^ (- (ex + n))).
  assert (b * 2 ^ n = 100 * 2 ^ (- ex)) as Hb.
  { unfold b. rewrite <- Z.mul_assoc, <- Z.pow_add_r by lia. do 2 f_equal; lia. }
  assert (0 < 2 ^ (- (ex + n))) as HpE by (apply pow2_pos; lia).
  pose proof (binary_round_aux_upper mx ex loc_Exact b ltac:(lia)) as Hround.
  fold n in Hround. rewrite Hb in Hround.
  specialize (Hround Hval ltac:(done)).
  assert ((ex + n) `max` fexp prec emax (Zdigits2 b + (ex + n)) ≤ emax - prec) as Hov.
  { assert (Zdigits2 b ≤ 7 - (ex + n)).
    { apply Zdigits2_le_of_lt; [lia|lia|].
      replace (7 - (ex + n)) with (7 + - (ex + n)) by lia. rewrite Z.pow_add_r by lia.
      change (2 ^ 7) with 128. unfold b. lia. }
    unfold fexp, SpecFloat.emin, prec, emax. lia. }
  specialize (Hround Hov).
  destruct (binary_round_aux prec emax false mx ex loc_Exact)
    as [sz| | |sz mz ez] eqn:Er; simpl; try done.
  destruct Hround as (-> & Hez & Hmz). split; [done|].
  assert (0 < 2 ^ (ez - (ex + n))) by (apply pow2_pos; lia).
  destruct (Z.leb_spec ez 0) as [Hle|Hgt].
  - assert (2 ^ (- (ex + n)) = 2 ^ (- ez) * 2 ^ (ez - (ex + n))) as Hpp.
    { rewrite <- Z.pow_add_r by lia. f_equal; lia. }
    assert (0 < 2 ^ (- ez)) by (apply pow2_pos; lia).
    unfold b in Hmz. rewrite Hpp in Hmz. nia.
  - assert (2 ^ (ez - (ex + n)) = 2 ^ ez * 2 ^ (- (ex + n))) as Hpp.
    { rewrite <- Z.pow_add_r by lia. f_equal; lia. }
    assert (0 < 2 ^ ez) by (apply pow2_pos; lia).
    unfold b in Hmz. rewrite Hpp in Hmz. nia.
Qed.

Lemma iter_xO_value q d : Z.pos (Pos.iter xO q d) = Z.pos q * 2 ^ Z.pos d.
Proof.
  induction d as [|d IH] using Pos.peano_ind.
  - simpl. lia.
  - rewrite Pos.iter_succ, Pos2Z.inj_xO, IH, Pos2Z.inj_succ, Z.pow_succ_r by lia. lia.
Qed.

(** What [round] builds from the integer [q] reads back as [q]. *)
Lemma to_int_shl_align q e2 :
  0 < Z.pos q ≤ 100 →
  to_int (let '(m', e') := shl_align q 0 e2 in S754_finite false m' e') = Z.pos q.
Proof.
  intros Hq. unfold shl_align. rewrite Z.sub_0_r.
  destruct e2 as [|p|p]; simpl to_int.
  - rewrite Z.mul_1_r. unfold INT_MIN, INT_MAX. lia.
  - rewrite Z.mul_1_r. unfold INT_MIN, INT_MAX. lia.
  - rewrite iter_xO_value. simpl Z.opp.
    rewrite Z.div_mul by (apply Z.pow_nonzero; lia).
    unfold INT_MIN, INT_MAX. lia.
Qed.

Lemma to_int_round_at_most_100 x :
  at_most_100 x → 0 ≤ to_int (round x) ≤ 100.
Proof.
  destruct x as [s| | |s m e]; simpl at_most_100; [intros _; simpl; lia|done|done|].
  intros [-> Hv]. unfold round.
  destruct (Z.leb_spec 0 e) as [He|He].
  - simpl to_int. rewrite (proj2 (Z.leb_le 0 e)) by done.
    destruct (Z.leb_spec e 0).
    + assert (e = 0) as -> by lia. simpl in *. unfold INT_MIN, INT_MAX. lia.
    + assert (0 < 2 ^ e) by (apply pow2_pos; lia). unfold INT_MIN, INT_MAX. nia.
  - rewrite (proj2 (Z.leb_le e 0)) in Hv by lia.
    assert (0 < 2 ^ (- e)) as Hp by (apply pow2_pos; lia).
    assert (0 ≤ 2 ^ (- e - 1)) as Hh by (apply Z.pow_nonneg; lia).
    assert (2 * 2 ^ (- e - 1) = 2 ^ (- e)) as Hhalf.
    { rewrite <- Z.pow_succ_r by lia. f_equal; lia. }
    set (q := (Z.pos m + 2 ^ (- e - 1)) / 2 ^ (- e)).
    assert (0 ≤ q < 101) as Hq.
    { split; [apply Z.div_pos; lia|]. apply Z.div_lt_upper_bound; lia. }
    destruct q as [|q'|q'] eqn:Eq; [simpl; lia| |lia].
    rewrite to_int_shl_align by lia. lia.
Qed.

(** ** The percentage *)

Definition is_finite (x : double) : bool :=
  match x with
  | S754_zero _ | S754_finite _ _ _ => true
  | _ => false
  end.

(** The two arguments are byte counts, the second of a part of the first:
    valid finite doubles with [0 <= nowDownloaded <= totalToDownload]. *)
Definition part_of_total (totalToDownload nowDownloaded : double) : Prop :=
  valid_binary prec emax totalToDownload = true
  ∧ valid_binary prec emax nowDownloaded = true
  ∧ is_finite totalToDownload = true ∧ is_finite nowDownloaded = true
  ∧ leb (S754_zero false) nowDownloaded = true
  ∧ leb nowDownloaded totalToDownload = true.

Lemma updateProgress_guard percentage totalToDownload nowDownloaded :
  leb totalToDownload (S754_zero false) = true →
  updateProgress percentage totalToDownload nowDownloaded = percentage.
Proof. unfold updateProgress. by intros ->. Qed.

Lemma updateProgress_range percentage totalToDownload nowDownloaded :
  part_of_total totalToDownload nowDownloaded →
  leb totalToDownload (S754_zero false) = false →
  0 ≤ updateProgress percentage totalToDownload nowDownloaded ≤ 100.
Proof.
  intros (Hvt & Hvn & Hft & Hfn & H0 & Hle) Hpos. unfold updateProgress. rewrite Hpos.
  destruct nowDownloaded as [sn| | |sn mn en]; try done.
  - destruct totalToDownload as [st| | |st mt et]; try done;
      destruct st; try done; simpl; lia.
  - destruct sn; [done|].
    destruct totalToDownload as [st| | |st mt et]; try done.
    destruct st; [done|].
    apply to_int_round_at_most_100, mul_100_at_most_100, div_at_most_one; [done..|].
    by apply leb_finite_units.
Qed.

End Rounding.

(** ** C9: the range of the percentage *)

Section PercentageRange.

Definition in_range (percentage : Z) : Prop := -1 ≤ percentage ≤ 100.

(** What the transport reports at a checkpoint is an unknown total (not
    above zero) or a part of a total. *)
Definition progress_well_formed (ev : xfer_event) : Prop :=
  match ev with
  | XProgress dltotal dlnow _ _ =>
      leb dltotal (S754_zero false) = true ∨ part_of_total dltotal dlnow
  | _ => True
  end.

Lemma updateProgress_in_range percentage totalToDownload nowDownloaded :
  leb totalToDownload (S754_zero false) = true
  ∨ part_of_total totalToDownload nowDownloaded →
  in_range percentage →
  in_range (updateProgress percentage totalToDownload nowDownloaded).
Proof.
  intros Hwf Hp. unfold in_range in *.
  destruct (leb totalToDownload (S754_zero false)) eqn:E.
  - by rewrite updateProgress_guard.
  - destruct Hwf as [|Hwf]; [done|].
    pose proof (updateProgress_range percentage _ _ Hwf E). lia.
Qed.

Lemma progressCallback_in_range t n ut un w :
  progress_well_formed (XProgress t n ut un) →
  in_range (downloadPercentage w) →
  in_range (downloadPercentage (progressCallback t n ut un w).2).
Proof.
  intros Hwf Hp. unfold progressCallback. simpl.
  destruct (abortDownload w); simpl.
  - unfold in_range. lia.
  - by apply updateProgress_in_range.
Qed.

Lemma run_transfer_in_range events final file : ∀ w,
  Forall progress_well_formed events →
  in_range (downloadPercentage w) →
  in_range (downloadPercentage (run_transfer events final file w).2).
Proof.
  induction events as [|ev rest IH]; intros w Hwf Hp; simpl; [done|].
  apply Forall_cons in Hwf as [Hev Hrest].
  destruct ev as [contents|t n ut un|]; simpl.
  - unfold writeCallback, fwrite.
    destruct (streams w !! file) as [[path pos]|]; simpl;
      (case_decide; [by apply IH|done]).
  - pose proof (progressCallback_in_range t n ut un w Hev Hp) as Hcb.
    destruct (progressCallback t n ut un w) as [r w1]. simpl in Hcb.
    destruct (r =? 0); [by apply IH|done].
  - by apply IH.
Qed.

Lemma download_with_in_range env curl url destination w :
  Forall progress_well_formed (transfer env (c_str url)).1 →
  in_range (downloadPercentage w) →
  in_range (downloadPercentage (download_with env curl url destination w).2).
Proof.
  intros Hwf Hp. unfold download_with, fopen.
  destruct (fopen_ok env (c_str destination)); simpl; [|done].
  unfold curl_easy_perform. destruct (transfer env (c_str url)) as [events final].
  simpl in Hwf.
  match goal with |- context [run_transfer events final ?f ?w1] =>
    pose proof (run_transfer_in_range events final f w1 Hwf Hp) as Hr;
    destruct (run_transfer events final f w1) as [result w2] end.
  simpl in Hr. destruct (result =? CURLE_OK); simpl; [|done].
  by destruct (ftell env _ _ =? 0).
Qed.

Lemma downloadFile_in_range env url toDestination w b w' :
  Forall progress_well_formed (transfer env (c_str url)).1 →
  in_range (downloadPercentage w) →
  downloadFile env url toDestination w = Some (b, w') →
  in_range (downloadPercentage w').
Proof.
  intros Hwf Hp. unfold downloadFile.
  assert (∀ destination w0, downloadPercentage w0 = downloadPercentage w →
            in_range (downloadPercentage (download_to env url destination w0).2)) as Hto.
  { intros destination w0 Hw0. unfold download_to.
    destruct (acquire_spec env w0)
      as (w1 & -> & _ & _ & _ & _ & _ & _ & _ & _ & _ & Hp1 & _).
    case_decide; simpl; [by rewrite Hp1, Hw0|].
    apply download_with_in_range; [done|]. by rewrite Hp1, Hw0. }
  destruct (find_first_of url (lit "{}")); [by intros [= <- <-]|].
  destruct (back (c_str toDestination)) as [c|]; [|done].
  destruct (Ascii.eqb c slash).
  - destruct (find_last_of url slash); [|by intros [= <- <-]].
    match goal with |- Some ?r = _ → _ =>
      intros [= E]; change w' with (b, w').2; rewrite <- E end.
    by apply Hto.
  - match goal with |- Some ?r = _ → _ =>
      intros [= E]; change w' with (b, w').2; rewrite <- E end.
    by apply Hto.
Qed.

Lemma copy_loop_percentage reads outputFile : ∀ w,
  downloadPercentage (copy_loop reads outputFile w) = downloadPercentage w.
Proof.
  induction reads as [|buffer rest IH]; intros w; simpl; [done|].
  case_decide; [|done]. rewrite IH. unfold fwrite.
  by destruct (streams w !! outputFile) as [[path pos]|].
Qed.

Lemma extract_entry_percentage env toDestination entry success w success' w' :
  extract_entry env toDestination entry success w = Some (success', w') →
  downloadPercentage w' = downloadPercentage w.
Proof.
  unfold extract_entry.
  destruct (empty_name _); [by intros [= _ <-]|].
  destruct (ends_with_dots _); [by intros [= _ <-]|].
  destruct (_ && _); [by intros [= _ <-]|].
  destruct (back _); [|done].
  destruct (zf_open_ok entry); [|by intros [= _ <-]].
  unfold fopen. destruct (fopen_ok env _); intros [= _ <-]; simpl; [|done].
  by rewrite copy_loop_percentage.
Qed.

Lemma unzip_loop_percentage env toDestination events : ∀ success w b w',
  unzip_loop env toDestination events success w = Some (b, w') →
  downloadPercentage w' = downloadPercentage w.
Proof.
  induction events as [|ev rest IH]; intros success w b w'; simpl.
  - by intros [= _ <-].
  - destruct ev as [entry|].
    + destruct (abortUnzip w); [by intros [= _ <-]|].
      destruct (extract_entry env toDestination entry success w) as [[s1 w1]|] eqn:E;
        [|done].
      intros H. apply IH in H. rewrite H. by eapply extract_entry_percentage.
    + intros H. by apply IH in H.
Qed.

Lemma unzipFile_percentage env zipFilePath toDestination w b w' :
  unzipFile env zipFilePath toDestination w = Some (b, w') →
  downloadPercentage w' = downloadPercentage w.
Proof.
  unfold unzipFile. destruct (zzip_dir env _); [|by intros [= _ <-]].
  intros H. by apply unzip_loop_percentage in H.
Qed.

(** C9. A call of the progress callback with a total that is not above zero
    leaves the percentage as it is. With [0 <= nowDownloaded <=
    totalToDownload], in IEEE double arithmetic, the value
    [round(nowDownloaded / totalToDownload * 100)] that is stored lies in
    [0, 100]. The only other store is the -1 of the abort. So from a
    percentage in [-1, 100] (it starts at -1), whatever prefix of a transfer
    has run and whenever [downloadFile] returns, the percentage is in
    [-1, 100]; [unzipFile] does not write it. *)
Theorem C9_percentage_stays_in_range :
  (∀ percentage total now,
     leb total (S754_zero false) = true → updateProgress percentage total now = percentage)
  ∧ (∀ percentage total now,
       part_of_total total now → leb total (S754_zero false) = false →
       0 ≤ updateProgress percentage total now ≤ 100)
  ∧ (∀ total now ut un w,
       progress_well_formed (XProgress total now ut un) →
       in_range (downloadPercentage w) →
       in_range (updateProgress (downloadPercentage w) total now)
       ∧ in_range (downloadPercentage (progressCallback total now ut un w).2))
  ∧ (∀ events final file w reached rest,
       Forall progress_well_formed events → events = reached ++ rest →
       in_range (downloadPercentage w) →
       in_range (downloadPercentage (run_transfer reached final file w).2))
  ∧ (∀ env url toDestination w b w',
       Forall progress_well_formed (transfer env (c_str url)).1 →
       in_range (downloadPercentage w) →
       downloadFile env url toDestination w = Some (b, w') →
       in_range (downloadPercentage w'))
  ∧ (∀ env zipFilePath toDestination w b w',
       unzipFile env zipFilePath toDestination w = Some (b, w') →
       downloadPercentage w' = downloadPercentage w)
  ∧ in_range (downloadPercentage fresh).
Proof.
  split; [apply updateProgress_guard|]. split; [apply updateProgress_range|].
  split.
  { intros total now ut un w Hwf Hp. split.
    - by apply updateProgress_in_range.
    - by apply progressCallback_in_range. }
  split.
  { intros events final file w reached rest Hwf -> Hp.
    apply Forall_app in Hwf as [Hwf _]. by apply run_transfer_in_range. }
  split; [apply downloadFile_in_range|].
  split; [apply unzipFile_percentage|].
  unfold in_range. simpl. lia.
Qed.

Lemma C9_percentage_stays_in_range_witness :
  let d := double_of_int in
  part_of_total (d 10) (d 3)
  ∧ updateProgress (-1) (d 10) (d 3) = 30
  ∧ 0 ≤ updateProgress (-1) (d 10) (d 3) ≤ 100.
Proof.
  intros d.
  assert (part_of_total (d 10) (d 3)) as H by (repeat split; reflexivity).
  split; [exact H|]. split; [reflexivity|].
  destruct C9_percentage_stays_in_range as (_ & Hrange & _).
  apply Hrange; [exact H|reflexivity].
Defined.

End PercentageRange.

(** * Further properties of the code *)

(** ** The transfer engine: what a transfer writes, and where *)

Section TransferContents.

(** The bytes a transfer delivers, in the order they arrive. *)
Fixpoint received (events : list xfer_event) : list ascii :=
  match events with
  | [] => []
  | XRecv contents :: rest => contents ++ received rest
  | _ :: rest => received rest
  end.

(** The percentage after the checkpoints of a transfer that nobody aborts,
    from the percentage before it. *)
Fixpoint published (percentage : Z) (events : list xfer_event) : Z :=
  match events with
  | [] => percentage
  | XProgress dltotal dlnow _ _ :: rest =>
      published (updateProgress percentage dltotal dlnow) rest
  | _ :: rest => published percentage rest
  end.

(** A transfer that nobody aborts runs to its end: every block goes to the
    stream's file, in order, and every checkpoint publishes its percentage. *)
Lemma run_transfer_undisturbed events final file path : ∀ w pos contents,
  XAbortRequest ∉ events →
  abortDownload w = false →
  streams w !! file = Some (path, pos) →
  files w !! path = Some contents →
  ∃ w', run_transfer events final file w = (final, w')
      ∧ files w' !! path = Some (contents ++ received events)
      ∧ downloadPercentage w' = published (downloadPercentage w) events
      ∧ abortDownload w' = false.
Proof.
  induction events as [|ev rest IH]; intros w pos contents Hev Hflag Hs Hf; simpl.
  - eexists. by rewrite app_nil_r.
  - apply not_elem_of_cons in Hev as [Hhd Htl].
    destruct ev as [block|t n ut un|]; [| |done]; simpl.
    + unfold writeCallback, fwrite. rewrite Hs. simpl.
      rewrite decide_True by done.
      match goal with |- context [run_transfer rest final file ?w1] =>
        destruct (IH w1 (pos + Z.of_nat (length block)) (contents ++ block) Htl)
          as (w' & -> & H1 & H2 & H3) end.
      { done. }
      { simpl. by rewrite lookup_insert_eq. }
      { simpl. rewrite Hf. simpl. by rewrite lookup_insert_eq. }
      exists w'. by rewrite H1, <- app_assoc.
    + unfold progressCallback. simpl. rewrite Hflag. simpl.
      match goal with |- context [run_transfer rest final file ?w1] =>
        destruct (IH w1 pos contents Htl) as (w' & -> & H1 & H2 & H3) end; try done.
      by exists w'.
Qed.

(** Whatever happens during a transfer, it writes to the file of its stream
    and to no other, moves no other stream, and does not take the file
    away. *)
Lemma run_transfer_files events final file path : ∀ w pos,
  streams w !! file = Some (path, pos) →
  let w' := (run_transfer events final file w).2 in
  (∀ p, p ≠ path → files w' !! p = files w !! p)
  ∧ (∀ h, h ≠ file → streams w' !! h = streams w !! h)
  ∧ (is_Some (files w !! path) → is_Some (files w' !! path))
  ∧ is_Some (streams w' !! file).
Proof.
  induction events as [|ev rest IH]; intros w pos Hs; simpl.
  - split; [done|]. split; [done|]. split; [done|]. by eexists.
  - destruct ev as [block|t n ut un|]; simpl.
    + unfold writeCallback, fwrite. rewrite Hs. simpl.
      rewrite decide_True by done.
      match goal with |- context [run_transfer rest final file ?w1] =>
        destruct (IH w1 (pos + Z.of_nat (length block))) as (H1 & H2 & H3 & H4) end.
      { simpl. by rewrite lookup_insert_eq. }
      simpl in *. split; [|split; [|split]].
      * intros p Hp. rewrite H1 by done. by rewrite lookup_insert_ne.
      * intros h Hh. rewrite H2 by done. by rewrite lookup_insert_ne.
      * intros _. apply H3. rewrite lookup_insert_eq. by eexists.
      * done.
    + unfold progressCallback. simpl.
      destruct (abortDownload w) eqn:Hflag; simpl.
      * split; [done|]. split; [done|]. split; [done|]. by eexists.
      * match goal with |- context [run_transfer rest final file ?w1] =>
          destruct (IH w1 pos) as (H1 & H2 & H3 & H4) end; done.
    + match goal with |- context [run_transfer rest final file ?w1] =>
        destruct (IH w1 pos) as (H1 & H2 & H3 & H4) end; done.
Qed.

End TransferContents.

(** ** The transfer engine: validation and the name of the file *)

Section Validation.

Lemma existsb_eqb_elem_of (x : ascii) (set : str) :
  existsb (Ascii.eqb x) set = true ↔ x ∈ set.
Proof.
  induction set as [|y r IH]; simpl.
  - split; [done|]. by intros H%elem_of_nil.
  - rewrite orb_true_iff, IH, elem_of_cons, ascii_eqb_true. done.
Qed.

Lemma index_first_of_None set s :
  index_first_of set s = None ↔ ∀ c, c ∈ s → c ∉ set.
Proof.
  induction s as [|x r IH]; simpl.
  - split; [|done]. by intros _ c H%elem_of_nil.
  - destruct (existsb (Ascii.eqb x) set) eqn:E.
    + apply existsb_eqb_elem_of in E. split; [done|].
      intros H. exfalso. apply (H x); [left|done].
    + assert (x ∉ set) as Hx.
      { intros H. apply existsb_eqb_elem_of in H. congruence. }
      destruct (index_first_of set r); simpl.
      * split; [done|]. intros H.
        assert (Some n = None) as [=]. apply IH. intros c Hc. apply H. by right.
      * split; [|done]. intros _ c [->|Hc]%elem_of_cons; [done|].
        revert c Hc. by apply IH.
Qed.

Lemma find_last_of_None s c : find_last_of s c = None ↔ c ∉ s.
Proof.
  induction s as [|x r IH]; simpl.
  - split; [|done]. by intros _ H%elem_of_nil.
  - rewrite not_elem_of_cons. destruct (find_last_of r c) as [i|].
    + split; [done|]. intros [_ H]. by apply IH in H.
    + destruct (Ascii.eqb x c) eqn:E.
      * apply ascii_eqb_true in E. split; [done|]. intros [H _]. congruence.
      * apply ascii_eqb_false in E. split; [|done]. intros _. split; [done|]. by apply IH.
Qed.

(** The last occurrence is in front of a rest that has none. *)
Lemma find_last_of_app pre name c :
  c ∉ name → find_last_of (pre ++ c :: name) c = Some (length pre).
Proof.
  intros Hname. induction pre as [|x r IH]; simpl.
  - apply find_last_of_None in Hname. rewrite Hname. by rewrite Ascii.eqb_refl.
  - by rewrite IH.
Qed.

(** The three ways in which [downloadFile] returns. *)
Lemma downloadFile_cases env url toDestination w r :
  downloadFile env url toDestination w = Some r →
  let w0 := set_abortDownload false w in
  (is_Some (find_first_of url (lit "{}"))
   ∧ r = (false, logMessage (lit "Invalid URL: " ++ url) w0))
  ∨ (find_first_of url (lit "{}") = None
     ∧ back (c_str toDestination) = Some slash ∧ (slash ∉ url)
     ∧ r = (false, logMessage (lit "Invalid URL: " ++ url)
                     (createDirectory (c_str toDestination) w0)))
  ∨ (accepted url toDestination
     ∧ r = download_to env url (destination_file url toDestination)
             (createDirectory (destination_dir toDestination) w0)).
Proof.
  intros H w0.
  destruct (find_first_of url (lit "{}")) as [i|] eqn:Eu.
  { left. unfold downloadFile in H. rewrite Eu in H. injection H as <-. split; [by eexists|done]. }
  right.
  destruct (back (c_str toDestination)) as [c|] eqn:Eb.
  2: { unfold downloadFile in H. rewrite Eu, Eb in H. done. }
  destruct (decide (c = slash ∧ find_last_of url slash = None)) as [[-> El]|Hn].
  - left. unfold downloadFile in H. rewrite Eu, Eb, Ascii.eqb_refl, El in H.
    injection H as <-. apply find_last_of_None in El. done.
  - right.
    assert (accepted url toDestination) as Hacc.
    { split; [done|]. split.
      - intros E. rewrite E in Eb. done.
      - rewrite Eb. intros [= ->]. destruct (find_last_of url slash); [by eexists|].
        exfalso. by apply Hn. }
    split; [done|]. rewrite downloadFile_accepted in H by done. by injection H as <-.
Qed.

(** X1. A URL with a brace in it is turned down before anything else is looked
    at, the destination included: the result is [false], the log has the
    message, and nothing but the abort flag and the log has changed. *)
Theorem downloadFile_rejects_braces env url toDestination w c :
  c ∈ url → c ∈ lit "{}" →
  downloadFile env url toDestination w
  = Some (false, logMessage (lit "Invalid URL: " ++ url) (set_abortDownload false w)).
Proof.
  intros Hc Hset. unfold downloadFile.
  destruct (find_first_of url (lit "{}")) as [i|] eqn:E; [done|].
  exfalso. unfold find_first_of in E.
  by apply (proj1 (index_first_of_None _ _) E c).
Qed.

Lemma downloadFile_rejects_braces_witness :
  downloadFile (env_of ([], 0) None) (lit "https://example.com/{id}.zip") [] fresh
  = Some (false, logMessage (lit "Invalid URL: https://example.com/{id}.zip") fresh).
Proof.
  apply (downloadFile_rejects_braces (env_of ([], 0) None)
           (lit "https://example.com/{id}.zip") [] fresh "{"%char).
  - apply (bool_decide_unpack _). vm_compute. exact I.
  - apply (bool_decide_unpack _). vm_compute. exact I.
Defined.

(** X2. Lines 102-120: where the file goes. Under a destination that ends in a
    slash the file is named after what follows the last slash of the URL,
    and a URL without slash is turned down after the directory has been
    asked for. Any other destination is the file itself; the directory asked
    for is what comes before its last slash, and for a destination without
    any slash the destination itself, with a slash put behind it. *)
Theorem downloadFile_destination_resolution env url toDestination w :
  find_first_of url (lit "{}") = None →
  let destination := c_str toDestination in
  let w0 := set_abortDownload false w in
  (∀ pre name, back destination = Some slash → url = pre ++ slash :: name → slash ∉ name →
     downloadFile env url toDestination w
     = Some (download_to env url (destination ++ name) (createDirectory destination w0)))
  ∧ (back destination = Some slash → slash ∉ url →
     downloadFile env url toDestination w
     = Some (false, logMessage (lit "Invalid URL: " ++ url) (createDirectory destination w0)))
  ∧ (∀ d name, destination = d ++ slash :: name → name ≠ [] → slash ∉ name →
     downloadFile env url toDestination w
     = Some (download_to env url destination (createDirectory (d ++ lit "/") w0)))
  ∧ (destination ≠ [] → slash ∉ destination →
     downloadFile env url toDestination w
     = Some (download_to env url destination (createDirectory (destination ++ lit "/") w0))).
Proof.
  intros Hurl destination w0. unfold downloadFile. rewrite Hurl. fold destination. fold w0.
  split; [|split; [|split]].
  - intros pre name -> -> Hname. rewrite Ascii.eqb_refl.
    rewrite find_last_of_app by done. unfold substr_from.
    rewrite (cons_middle slash pre name), app_assoc.
    rewrite drop_app_length'; [done|]. rewrite length_app. simpl. lia.
  - intros -> Hno. rewrite Ascii.eqb_refl.
    apply find_last_of_None in Hno. by rewrite Hno.
  - intros d name Hd Hne Hname.
    assert (∃ c, back destination = Some c ∧ c ≠ slash) as (c & -> & Hc).
    { rewrite Hd. unfold back.
      destruct (last name) as [c|] eqn:El; [|by apply last_None in El].
      exists c. rewrite (cons_middle slash d name), app_assoc.
      rewrite last_app, El. split; [done|]. intros ->.
      apply Hname. apply last_Some in El as [l' ->].
      rewrite elem_of_app, list_elem_of_singleton. auto. }
    apply ascii_eqb_false in Hc. rewrite Hc.
    assert (find_last_of destination slash = Some (length d)) as ->
      by (rewrite Hd; by apply find_last_of_app).
    assert (take (length d) destination = d) as E
      by (rewrite Hd; by rewrite take_app_length).
    unfold substr_to. by rewrite E.
  - intros Hne Hno.
    destruct (back destination) as [c|] eqn:Eb; [|by apply last_None in Eb].
    assert (c ≠ slash) as Hc.
    { intros ->. apply Hno. apply last_Some in Eb as [l' ->].
      rewrite elem_of_app, list_elem_of_singleton. auto. }
    apply ascii_eqb_false in Hc. rewrite Hc.
    apply find_last_of_None in Hno. by rewrite Hno.
Qed.

End Validation.

Lemma downloadFile_destination_resolution_witness :
  let url := lit "https://example.com/pkg/app.zip" in
  let env := env_of ([], 0) None in
  downloadFile env url (lit "sdmc:/out/") fresh
  = Some (download_to env url (lit "sdmc:/out/app.zip")
            (createDirectory (lit "sdmc:/out/") fresh)).
Proof.
  intros url env.
  destruct (downloadFile_destination_resolution env url (lit "sdmc:/out/") fresh)
    as (H & _); [reflexivity|].
  apply (H (lit "https://example.com/pkg") (lit "app.zip")); [reflexivity..|].
  apply (bool_decide_unpack _). vm_compute. exact I.
Defined.

(** ** The transfer engine: the outcomes of a transfer *)

Section Outcomes.

Context (env : Env) (url toDestination : str) (w : World).

Let destination := destination_file url toDestination.

(** The request gets as far as the transfer: it is accepted, a handle is
    acquired and the destination can be opened. *)
Definition transfer_starts : Prop :=
  accepted url toDestination
  ∧ failed_attempts env (curl_inits w) ≠ 3%nat
  ∧ fopen_ok env (c_str (destination_file url toDestination)) = true.

(** The world in which the transport starts, and the stream it writes to. *)
Lemma downloadFile_started :
  transfer_starts →
  ∃ w1, downloadFile env url toDestination w
        = Some (download_with env (curl_inits w + failed_attempts env (curl_inits w))%nat
                  url destination w1)
      ∧ logged w1 = logged w ++ replicate (failed_attempts env (curl_inits w)) retry_message
      ∧ files w1 = files w ∧ streams w1 = streams w ∧ next_stream w1 = next_stream w
      ∧ abortDownload w1 = false ∧ abortUnzip w1 = abortUnzip w
      ∧ downloadPercentage w1 = downloadPercentage w
      ∧ curl_performs w1 = curl_performs w
      ∧ curl_handles w1
        = {[(curl_inits w + failed_attempts env (curl_inits w))%nat]} ∪ curl_handles w.
Proof.
  intros (Hacc & Hf & Hopen). rewrite downloadFile_accepted by done.
  unfold download_to. set (w0 := createDirectory _ _).
  destruct (acquire_spec env w0)
    as (w1 & Hloop & _ & Hl & Hh & Hfi & _ & Hs & Hn & Hflag & Hu & Hp & Hperf).
  change (curl_inits w0) with (curl_inits w) in *.
  rewrite Hloop. rewrite !decide_False in * by done.
  exists w1. done.
Qed.


(** X4. A transfer that nobody aborts and that the transport ends with an error
    gives [false]: the log ends with the transport's description of that
    error, and the destination file is gone. *)
Theorem downloadFile_transport_error events final :
  transfer_starts →
  transfer env (c_str url) = (events, final) →
  XAbortRequest ∉ events →
  final ≠ CURLE_OK →
  ∃ w', downloadFile env url toDestination w = Some (false, w')
      ∧ files w' !! c_str (destination_file url toDestination) = None
      ∧ last (logged w') = Some (lit "Error downloading file: " ++ curl_easy_strerror env final)
      ∧ abortDownload w' = false.
Proof.
  intros Hst Htr Hev Hfinal.
  destruct (downloadFile_started Hst) as (w1 & -> & _ & _ & _ & _ & Hflag & _).
  destruct Hst as (_ & _ & Hopen).
  unfold download_with, fopen. fold destination in Hopen |- *. rewrite Hopen.
  unfold curl_easy_perform. rewrite Htr.
  match goal with |- context [run_transfer events _ ?f ?w2] =>
    destruct (run_transfer_undisturbed events final f (c_str destination) w2 0 [] Hev)
      as (w3 & -> & Hfile & Hpct & Hflag') end.
  { done. }
  { simpl. by rewrite lookup_insert_eq. }
  { simpl. by rewrite lookup_insert_eq. }
  simpl. destruct (final =? CURLE_OK) eqn:E; [lia|]. simpl.
  eexists. split; [reflexivity|]. simpl. split; [by rewrite lookup_delete_eq|].
  split; [by rewrite last_snoc|done].
Qed.

(** X5. A destination that cannot be opened gives [false]: the log ends with the
    message that names it, the handle is given back, and there was no
    transfer: no stream and, but for the log, no file has changed. *)
Theorem downloadFile_open_failure :
  accepted url toDestination →
  failed_attempts env (curl_inits w) ≠ 3%nat →
  fopen_ok env (c_str (destination_file url toDestination)) = false →
  ∃ w', downloadFile env url toDestination w = Some (false, w')
      ∧ last (logged w')
        = Some (lit "Error opening file: " ++ destination_file url toDestination)
      ∧ ((curl_inits w + failed_attempts env (curl_inits w))%nat ∉ curl_handles w')
      ∧ curl_performs w' = curl_performs w
      ∧ files_kept_but_log w w' ∧ streams w' = streams w
      ∧ downloadPercentage w' = downloadPercentage w.
Proof.
  intros Hacc Hf Hopen. rewrite downloadFile_accepted by done.
  unfold download_to. set (w0 := createDirectory _ _).
  destruct (acquire_spec env w0)
    as (w1 & Hloop & _ & Hl & Hh & Hfi & _ & Hs & Hn & Hflag & Hu & Hp & Hperf).
  change (curl_inits w0) with (curl_inits w) in *.
  rewrite Hloop. rewrite !decide_False in * by done.
  unfold download_with, fopen. rewrite Hopen. simpl.
  eexists. split; [reflexivity|]. unfold files_kept_but_log. simpl.
  split; [by rewrite last_snoc|]. split.
  { intros [_ H]%elem_of_difference. apply H. by apply elem_of_singleton. }
  rewrite Hfi. done.
Qed.

(** X6. When the transfer starts, the result tells whether the destination file
    is there afterwards: [true] with the file in place, [false] with the file
    removed, whatever the transport and the other context did. *)
Theorem downloadFile_result_matches_file :
  transfer_starts →
  ∃ b w', downloadFile env url toDestination w = Some (b, w')
        ∧ (b = true ↔ is_Some (files w' !! c_str (destination_file url toDestination))).
Proof.
  intros Hst.
  destruct (downloadFile_started Hst) as (w1 & -> & _).
  destruct Hst as (_ & _ & Hopen).
  unfold download_with, fopen. fold destination in Hopen |- *. rewrite Hopen.
  unfold curl_easy_perform. destruct (transfer env (c_str url)) as [events final].
  match goal with |- context [run_transfer events final ?f ?w2] =>
    destruct (run_transfer_files events final f (c_str destination) w2 0)
      as (_ & _ & Hkeep & _);
    [simpl; by rewrite lookup_insert_eq|];
    destruct (run_transfer events final f w2) as [result w3] end.
  simpl in Hkeep. rewrite lookup_insert_eq in Hkeep.
  specialize (Hkeep (mk_is_Some _ _ eq_refl)).
  destruct (result =? CURLE_OK); simpl.
  - destruct (ftell env _ _ =? 0); simpl.
    + eexists _, _. split; [reflexivity|]. simpl. rewrite lookup_delete_eq.
      split; [done|]. by intros [? [=]].
    + eexists _, _. split; [reflexivity|]. simpl. done.
  - eexists _, _. split; [reflexivity|]. simpl. rewrite lookup_delete_eq.
    split; [done|]. by intros [? [=]].
Qed.

End Outcomes.

(** An environment like [env_of] in which no file can be opened for
    writing. *)
Definition env_read_only (t : list xfer_event * Z) : Env :=
  mkEnv (λ _, true) (λ _, false) (-1) (λ _, t) (λ _, lit "error") (λ _, None).

(** The sample request is accepted. *)
Lemma sample_request_accepted :
  accepted (lit "https://example.com/pkg/app.zip") (lit "sdmc:/out/").
Proof.
  split; [vm_compute; reflexivity|]. split; [vm_compute; discriminate|].
  intros _. vm_compute. eexists. reflexivity.
Defined.

(** None of the events is an abort request. *)
Ltac no_abort_request :=
  rewrite ?not_elem_of_cons; repeat split; try discriminate; apply not_elem_of_nil.


Lemma downloadFile_transport_error_witness :
  ∃ w', downloadFile (env_of ([XRecv (lit "PK")], 7)%Z None)
          (lit "https://example.com/pkg/app.zip") (lit "sdmc:/out/") fresh = Some (false, w')
      ∧ files w' !! lit "sdmc:/out/app.zip" = None
      ∧ last (logged w') = Some (lit "Error downloading file: error").
Proof.
  destruct (downloadFile_transport_error (env_of ([XRecv (lit "PK")], 7) None)
              (lit "https://example.com/pkg/app.zip") (lit "sdmc:/out/") fresh
              [XRecv (lit "PK")] 7)
    as (w' & H & Hf & Hl & _).
  - split; [exact sample_request_accepted|]. split; [vm_compute; discriminate|reflexivity].
  - reflexivity.
  - no_abort_request.
  - vm_compute. discriminate.
  - exists w'. split; [exact H|]. split; [exact Hf|exact Hl].
Defined.

Lemma downloadFile_open_failure_witness :
  ∃ w', downloadFile (env_read_only ([], 0)) (lit "https://example.com/pkg/app.zip")
          (lit "sdmc:/out/") fresh = Some (false, w')
      ∧ last (logged w') = Some (lit "Error opening file: sdmc:/out/app.zip")
      ∧ curl_handles w' = ∅ ∧ curl_performs w' = 0%nat
      ∧ files w' !! lit "sdmc:/out/app.zip" = None.
Proof.
  destruct (downloadFile_open_failure (env_read_only ([], 0))
              (lit "https://example.com/pkg/app.zip") (lit "sdmc:/out/") fresh)
    as (w' & H & Hl & _ & Hp & Hf & _).
  - exact sample_request_accepted.
  - vm_compute. discriminate.
  - reflexivity.
  - exists w'. split; [exact H|]. split; [exact Hl|].
    split; [|split; [exact Hp|]].
    + vm_compute in H. injection H as <-. reflexivity.
    + rewrite (Hf (lit "sdmc:/out/app.zip")); [reflexivity|].
      vm_compute. discriminate.
Defined.

Lemma downloadFile_result_matches_file_witness :
  ∃ b w', downloadFile (env_of ([XRecv (lit "PK")], CURLE_OK) None)
            (lit "https://example.com/pkg/app.zip") (lit "sdmc:/out/") fresh = Some (b, w')
        ∧ (b = true ↔ is_Some (files w' !! lit "sdmc:/out/app.zip")).
Proof.
  apply (downloadFile_result_matches_file (env_of ([XRecv (lit "PK")], CURLE_OK) None)
           (lit "https://example.com/pkg/app.zip") (lit "sdmc:/out/") fresh).
  split; [exact sample_request_accepted|]. split; [vm_compute; discriminate|reflexivity].
Defined.

(** ** The transfer engine: what a call leaves behind *)

Section Resources.

(** The handles that [fopen] and [curl_easy_init] have yet to give out are
    not in use. *)
Definition handles_fresh (w : World) : Prop :=
  (∀ h, (next_stream w ≤ h)%nat → streams w !! h = None)
  ∧ (∀ h, (curl_inits w ≤ h)%nat → h ∉ curl_handles w).

Lemma download_with_resources env curl url destination w :
  let w' := (download_with env curl url destination w).2 in
  (∀ p, p ≠ c_str destination → files w' !! p = files w !! p)
  ∧ (streams w !! next_stream w = None → streams w' = streams w)
  ∧ curl_handles w' = curl_handles w ∖ {[curl]}
  ∧ (next_stream w ≤ next_stream w')%nat ∧ curl_inits w' = curl_inits w
  ∧ abortUnzip w' = abortUnzip w ∧ dirs w' = dirs w.
Proof.
  unfold download_with, fopen.
  destruct (fopen_ok env (c_str destination)); simpl.
  2: { repeat split; done. }
  unfold curl_easy_perform. destruct (transfer env (c_str url)) as [events final].
  match goal with |- context [run_transfer events final ?f ?w1] =>
    pose proof (run_transfer_frame events final f w1) as (_ & Hi & Hh & _ & Hd & Hu & Hn);
    destruct (run_transfer_files events final f (c_str destination) w1 0)
      as (Hfiles & Hstreams & _ & _);
    [simpl; by rewrite lookup_insert_eq|];
    destruct (run_transfer events final f w1) as [result w2] end.
  simpl in *.
  assert (∀ p, p ≠ c_str destination →
            delete (c_str destination) (files w2) !! p = files w !! p) as Hdel.
  { intros p Hp. rewrite lookup_delete_ne by done. rewrite Hfiles by done.
    by rewrite lookup_insert_ne. }
  assert (∀ p, p ≠ c_str destination → files w2 !! p = files w !! p) as Hkeep.
  { intros p Hp. rewrite Hfiles by done. by rewrite lookup_insert_ne. }
  assert (streams w !! next_stream w = None
          → delete (next_stream w) (streams w2) = streams w) as Hclosed.
  { intros Hfresh. apply map_eq. intros h.
    destruct (decide (h = next_stream w)) as [->|Hh'].
    - by rewrite lookup_delete_eq.
    - rewrite lookup_delete_ne by done. rewrite Hstreams by done.
      by rewrite lookup_insert_ne. }
  destruct (result =? CURLE_OK); simpl.
  - destruct (ftell env _ _ =? 0); simpl; rewrite Hh, Hn, Hi, Hu, Hd;
      repeat split; try done; lia.
  - rewrite Hh, Hn, Hi, Hu, Hd. repeat split; try done; lia.
Qed.

Lemma download_to_resources env url destination w :
  let w' := (download_to env url destination w).2 in
  (∀ p, p ≠ c_str destination → files w' !! p = files w !! p)
  ∧ (handles_fresh w →
     streams w' = streams w ∧ curl_handles w' = curl_handles w ∧ handles_fresh w')
  ∧ abortUnzip w' = abortUnzip w ∧ dirs w' = dirs w.
Proof.
  unfold download_to.
  destruct (acquire_spec env w)
    as (w1 & -> & Hi & _ & Hh & Hf & Hd & Hs & Hn & _ & Hu & _).
  pose proof (failed_attempts_le env (curl_inits w)) as Hle.
  destruct (decide (failed_attempts env (curl_inits w) = 3%nat)) as [E|E]; simpl.
  - rewrite Hf, Hs, Hh, Hu, Hd. split; [done|]. split; [|done].
    intros [Hfs Hfc]. split; [done|]. split; [done|]. split; simpl.
    + intros h Hge. rewrite Hs. apply Hfs. lia.
    + intros h Hge. rewrite Hh. apply Hfc. lia.
  - pose proof (download_with_resources env
                  (curl_inits w + failed_attempts env (curl_inits w))%nat
                  url destination w1)
      as (Hfiles & Hstreams & Hhandles & Hnext & Hinits & Hu' & Hd').
    simpl in *. rewrite Hu', Hd', Hu, Hd. split; [|split; [|done]].
    + intros p Hp. rewrite Hfiles by done. by rewrite Hf.
    + intros [Hfs Hfc].
      assert (streams (download_with env
                (curl_inits w + failed_attempts env (curl_inits w))%nat
                url destination w1).2 = streams w) as Es.
      { rewrite Hstreams; [done|]. rewrite Hs, Hn. by apply Hfs. }
      assert (curl_handles (download_with env
                (curl_inits w + failed_attempts env (curl_inits w))%nat
                url destination w1).2 = curl_handles w) as Ec.
      { rewrite Hhandles, Hh. apply set_eq. intros x.
        rewrite elem_of_difference, elem_of_union, elem_of_singleton.
        split; [by intros [[?|?] ?]|]. intros Hx. split; [by right|].
        intros ->. revert Hx. apply Hfc. lia. }
      split; [done|]. split; [done|]. split.
      * intros h Hge. rewrite Es. apply Hfs. lia.
      * intros h Hge. rewrite Ec. apply Hfc. lia.
Qed.

(** X7. A call writes to one file at most besides the log: the one it resolves
    the destination to. Every file other than these two is as it was,
    whichever way the call ends. *)
Theorem downloadFile_touches_destination_only env url toDestination w b w' p :
  downloadFile env url toDestination w = Some (b, w') →
  p ≠ c_str (destination_file url toDestination) →
  p ≠ DebugFuncs.logFilePath →
  files w' !! p = files w !! p.
Proof.
  intros H Hp _.
  destruct (downloadFile_cases env url toDestination w (b, w') H)
    as [[_ E]|[(_ & _ & _ & E)|[_ E]]]; try by injection E as -> ->.
  change w' with (b, w').2. rewrite E.
  match goal with |- context [download_to env url ?d ?w0] =>
    destruct (download_to_resources env url d w0) as (Hfiles & _) end.
  by rewrite Hfiles.
Qed.

(** X8. A call gives back what it takes: when it returns, whichever way it ends,
    the streams that are open and the transfer handles that are live are
    those from before the call. *)
Theorem downloadFile_releases_handles env url toDestination w b w' :
  handles_fresh w →
  downloadFile env url toDestination w = Some (b, w') →
  streams w' = streams w ∧ curl_handles w' = curl_handles w ∧ handles_fresh w'.
Proof.
  intros Hfresh H.
  destruct (downloadFile_cases env url toDestination w (b, w') H)
    as [[_ E]|[(_ & _ & _ & E)|[_ E]]]; try by injection E as -> ->.
  change w' with (b, w').2. rewrite E.
  match goal with |- context [download_to env url ?d ?w0] =>
    destruct (download_to_resources env url d w0) as (_ & Hres & _) end.
  by apply Hres.
Qed.

End Resources.

(** A world in which one file is on the storage already. *)
Definition with_file (path contents : str) : World := set_files {[path := contents]} fresh.

Lemma handles_fresh_with_file path contents : handles_fresh (with_file path contents).
Proof.
  split; intros h _; [apply lookup_empty|apply not_elem_of_empty].
Defined.

Lemma downloadFile_touches_destination_only_witness :
  ∃ b w', downloadFile (env_of ([XRecv (lit "PK")], CURLE_OK) None)
            (lit "https://example.com/pkg/app.zip") (lit "sdmc:/out/")
            (with_file (lit "sdmc:/keep.txt") (lit "old")) = Some (b, w')
        ∧ files w' !! lit "sdmc:/keep.txt" = Some (lit "old").
Proof.
  destruct (downloadFile (env_of ([XRecv (lit "PK")], CURLE_OK) None)
              (lit "https://example.com/pkg/app.zip") (lit "sdmc:/out/")
              (with_file (lit "sdmc:/keep.txt") (lit "old"))) as [[b w']|] eqn:E.
  2: { vm_compute in E. discriminate. }
  exists b, w'. split; [reflexivity|].
  rewrite (downloadFile_touches_destination_only _ _ _ _ _ _ (lit "sdmc:/keep.txt") E).
  - vm_compute. reflexivity.
  - vm_compute. discriminate.
  - vm_compute. discriminate.
Defined.

Lemma downloadFile_releases_handles_witness :
  ∃ b w', downloadFile (env_of ([XRecv (lit "PK")], CURLE_OK) None)
            (lit "https://example.com/pkg/app.zip") (lit "sdmc:/out/")
            (with_file (lit "sdmc:/keep.txt") (lit "old")) = Some (b, w')
        ∧ streams w' = ∅ ∧ curl_handles w' = ∅.
Proof.
  destruct (downloadFile (env_of ([XRecv (lit "PK")], CURLE_OK) None)
              (lit "https://example.com/pkg/app.zip") (lit "sdmc:/out/")
              (with_file (lit "sdmc:/keep.txt") (lit "old"))) as [[b w']|] eqn:E.
  2: { vm_compute in E. discriminate. }
  exists b, w'. split; [reflexivity|].
  destruct (downloadFile_releases_handles _ _ _ _ _ _
              (handles_fresh_with_file (lit "sdmc:/keep.txt") (lit "old")) E)
    as (Hs & Hh & _).
  split; [exact Hs|exact Hh].
Defined.

(** ** The transfer engine: an abort request that comes too late *)

Section LateAbort.






End LateAbort.

(** ** The transfer engine: one transfer at most *)

Section OneTransfer.

(** X10. A call asks the transport for one transfer when it gets as far as that,
    and for none otherwise: a transfer that fails is not tried again. A call
    that does not get that far writes to no file but the log, and only a
    call that does can give [true]. *)
Theorem downloadFile_performs_at_most_one_transfer env url toDestination w b w' :
  downloadFile env url toDestination w = Some (b, w') →
  (transfer_starts env url toDestination w → curl_performs w' = S (curl_performs w))
  ∧ (¬ transfer_starts env url toDestination w →
     b = false ∧ curl_performs w' = curl_performs w ∧ files_kept_but_log w w').
Proof.
  intros H. unfold files_kept_but_log.
  destruct (downloadFile_cases env url toDestination w (b, w') H)
    as [[Hbrace E]|[(_ & Hback & Hno & E)|[Hacc E]]].
  - injection E as -> ->. split; [|done].
    intros ((Hurl & _) & _). rewrite Hurl in Hbrace. by destruct Hbrace.
  - injection E as -> ->. split; [|done].
    intros ((_ & _ & Hslash) & _). apply find_last_of_None in Hno.
    destruct (Hslash Hback) as [i Hi]. congruence.
  - unfold download_to in E. revert E. set (w0 := createDirectory _ _).
    destruct (acquire_spec env w0)
      as (w1 & -> & _ & _ & _ & Hf & _ & _ & _ & _ & _ & _ & Hp).
    change (curl_inits w0) with (curl_inits w) in *.
    change (curl_performs w0) with (curl_performs w) in *.
    change (files w0) with (files w) in *.
    destruct (decide (failed_attempts env (curl_inits w) = 3%nat)) as [E3|E3].
    { intros [= -> ->]. simpl. rewrite Hf. split; [|done]. by intros (_ & Hne & _). }
    unfold download_with, fopen.
    destruct (fopen_ok env (c_str (destination_file url toDestination))) eqn:Eo.
    2: { intros [= -> ->]. simpl. rewrite Hf. split; [|done].
         intros (_ & _ & Ho). congruence. }
    unfold curl_easy_perform. destruct (transfer env (c_str url)) as [events final].
    match goal with |- context [run_transfer events final ?f ?w2] =>
      pose proof (run_transfer_frame events final f w2) as (_ & _ & _ & Hperf & _);
      destruct (run_transfer events final f w2) as [result w3] end.
    simpl in Hperf.
    assert (transfer_starts env url toDestination w) as Hst by done.
    destruct (result =? CURLE_OK); simpl.
    + destruct (ftell env _ _ =? 0); intros [= -> ->]; simpl; rewrite Hperf, Hp; done.
    + intros [= -> ->]. simpl. rewrite Hperf, Hp. done.
Qed.

Lemma downloadFile_performs_at_most_one_transfer_witness :
  ∃ b w', downloadFile (env_of ([XRecv (lit "PK")], 7) None)
            (lit "https://example.com/pkg/app.zip") (lit "sdmc:/out/") fresh = Some (b, w')
        ∧ curl_performs w' = 1%nat.
Proof.
  destruct (downloadFile (env_of ([XRecv (lit "PK")], 7) None)
              (lit "https://example.com/pkg/app.zip") (lit "sdmc:/out/") fresh)
    as [[b w']|] eqn:E.
  2: { vm_compute in E. discriminate. }
  exists b, w'. split; [reflexivity|].
  destruct (downloadFile_performs_at_most_one_transfer _ _ _ _ _ _ E) as [Hst _].
  apply Hst.
  split; [exact sample_request_accepted|]. split; [vm_compute; discriminate|reflexivity].
Defined.

End OneTransfer.

(** ** The progress percentage at the two ends of a transfer *)

Section ProgressEnds.

(** A quotient of a number by itself is one. *)
Lemma div_self m e :
  div (S754_finite false m e) (S754_finite false m e) = S754_finite false 4503599627370496 (-52).
Proof.
  unfold div, SFdiv, SFdiv_core_binary.
  replace (Zdigits2 (Z.pos m) + e - (Zdigits2 (Z.pos m) + e)) with 0 by lia.
  rewrite Z.sub_diag.
  change (Z.min (fexp prec emax 0) 0) with (-53).
  change (0 - -53) with 53.
  cbv iota beta.
  rewrite Z.shiftl_mul_pow2 by lia.
  assert (Z.div_eucl (Z.pos m * 2 ^ 53) (Z.pos m) = (2 ^ 53, 0)) as ->.
  { pose proof (Z.div_eucl_eq (Z.pos m * 2 ^ 53) (Z.pos m)) as H.
    pose proof (Z.mod_pos_bound (Z.pos m * 2 ^ 53) (Z.pos m)) as Hb.
    unfold Z.modulo, Z.div in *.
    assert (Z.pos m * 2 ^ 53 / Z.pos m = 2 ^ 53) as Hq.
    { rewrite Z.mul_comm. apply Z.div_mul. lia. }
    assert ((Z.pos m * 2 ^ 53) mod Z.pos m = 0) as Hr.
    { rewrite Z.mul_comm. apply Z.mod_mul. lia. }
    unfold Z.modulo, Z.div in Hq, Hr.
    destruct (Z.div_eucl (Z.pos m * 2 ^ 53) (Z.pos m)) as [q r]. simpl in *. congruence. }
  assert (new_location (Z.pos m) 0 = loc_Exact) as -> by (by apply new_location_exact).
  vm_compute. reflexivity.
Qed.

(** X11. When the transfer is complete, that is when [nowDownloaded] is the
    total, whatever positive finite number that is, the percentage stored is
    exactly 100; with nothing received yet and a total that passes the guard
    of line 51 (and is a number) it is 0. *)
Theorem updateProgress_at_both_ends :
  (∀ percentage m e,
     updateProgress percentage (S754_finite false m e) (S754_finite false m e) = 100)
  ∧ (∀ percentage totalToDownload s,
       leb totalToDownload (S754_zero false) = false →
       totalToDownload ≠ S754_nan →
       updateProgress percentage totalToDownload (S754_zero s) = 0).
Proof.
  split.
  - intros percentage m e. unfold updateProgress.
    change (leb (S754_finite false m e) (S754_zero false)) with false. cbv iota.
    rewrite div_self. vm_compute. reflexivity.
  - intros percentage total s Hguard Hnum. unfold updateProgress. rewrite Hguard.
    destruct total as [[|]|[|]| |[|] m e]; try done; by destruct s.
Qed.

End ProgressEnds.
(** ** The archive extractor: what a walk leaves behind *)

Section WalkFrame.

Context (env : Env) (toDestination : str).

(** The directory asked for before an entry is opened (lines 280-287). *)
Definition entry_dir (entry : zip_entry) : str :=
  let extractedFilePath := entry_path toDestination entry in
  substr_to extractedFilePath (find_last_of extractedFilePath slash) ++ lit "/".

(** What the walk has in hand between two entries. *)
Record walk_frame (w w' : World) : Prop := mkWalkFrame {
  frame_abortDownload : abortDownload w' = abortDownload w;
  frame_curl_inits : curl_inits w' = curl_inits w;
  frame_curl_handles : curl_handles w' = curl_handles w;
  frame_curl_performs : curl_performs w' = curl_performs w;
  frame_next_stream : (next_stream w ≤ next_stream w')%nat;
  frame_streams :
    (∀ h, (next_stream w ≤ h)%nat → streams w !! h = None) → streams w' = streams w;
  frame_dirs : dirs w ⊆ dirs w';
  frame_files : ∀ p, is_Some (files w !! p) → is_Some (files w' !! p)
}.

Lemma walk_frame_refl w : walk_frame w w.
Proof. by constructor. Qed.

Lemma walk_frame_trans w1 w2 w3 : walk_frame w1 w2 → walk_frame w2 w3 → walk_frame w1 w3.
Proof.
  intros [A1 A2 A3 A4 A5 A6 A7 A8] [B1 B2 B3 B4 B5 B6 B7 B8]. constructor.
  - by rewrite B1.
  - by rewrite B2.
  - by rewrite B3.
  - by rewrite B4.
  - lia.
  - intros Hfresh. rewrite B6; [by apply A6|].
    intros h Hh. rewrite A6 by done. apply Hfresh. lia.
  - by etrans.
  - intros p Hp. by apply B8, A8.
Qed.

Lemma copy_loop_frame reads outputFile : ∀ w,
  let w' := copy_loop reads outputFile w in
  abortDownload w' = abortDownload w ∧ curl_inits w' = curl_inits w
  ∧ curl_handles w' = curl_handles w ∧ curl_performs w' = curl_performs w
  ∧ next_stream w' = next_stream w ∧ dirs w' = dirs w
  ∧ (∀ h, h ≠ outputFile → streams w' !! h = streams w !! h)
  ∧ (∀ p, is_Some (files w !! p) → is_Some (files w' !! p)).
Proof.
  induction reads as [|buffer rest IH]; intros w; simpl; [done|].
  case_decide; [|done].
  destruct (IH (fwrite buffer outputFile w).2) as (H1 & H2 & H3 & H4 & H5 & H6 & H7 & H8).
  rewrite H1, H2, H3, H4, H5, H6. unfold fwrite in *.
  destruct (streams w !! outputFile) as [[path pos]|]; simpl in *; [|done].
  repeat split; try done.
  - intros h Hh. rewrite H7 by done. by rewrite lookup_insert_ne.
  - intros p Hp. apply H8. destruct (decide (p = path)) as [->|Hne].
    + rewrite lookup_insert_eq. by eexists.
    + by rewrite lookup_insert_ne.
Qed.

Lemma extract_entry_frame entry success w success' w' :
  extract_entry env toDestination entry success w = Some (success', w') →
  walk_frame w w'
  ∧ (entry_skipped toDestination entry = false → entry_dir entry ∈ dirs w').
Proof.
  unfold extract_entry, entry_skipped, entry_dir.
  fold (entry_name entry).
  destruct (empty_name (d_name entry)) eqn:Ee; simpl.
  { intros [= _ <-]. split; [apply walk_frame_refl|done]. }
  destruct (ends_with_dots (toDestination ++ entry_name entry)) eqn:Ed; simpl.
  { intros [= _ <-]. split; [apply walk_frame_refl|done]. }
  fold (sanitized_path toDestination (entry_name entry)). fold (entry_path toDestination entry).
  pose proof (entry_path_nonempty toDestination entry Ee) as Hne.
  rewrite (bool_decide_eq_false_2 (entry_path toDestination entry = [])) by done. simpl.
  destruct (bool_decide (back (entry_path toDestination entry) = Some slash)) eqn:Es; simpl.
  { intros [= _ <-]. split; [apply walk_frame_refl|done]. }
  destruct (back (entry_path toDestination entry)) as [c|] eqn:Eb; [|done].
  assert (Ascii.eqb c slash = false) as Ec.
  { apply ascii_eqb_false. intros ->. by apply bool_decide_eq_false_1 in Es. }
  rewrite Ec. simpl.
  destruct (zf_open_ok entry); simpl.
  2: { intros [= _ <-]. split; [|intros _; simpl; set_solver].
       constructor; simpl; try done. set_solver. }
  unfold fopen. destruct (fopen_ok env _); simpl.
  2: { intros [= _ <-]. split; [|intros _; simpl; set_solver].
       constructor; simpl; try done. set_solver. }
  intros [= _ <-].
  match goal with |- context [copy_loop ?r ?h ?w1] =>
    destruct (copy_loop_frame r h w1) as (H1 & H2 & H3 & H4 & H5 & H6 & H7 & H8) end.
  simpl in *. split.
  - constructor; simpl; try done.
    + lia.
    + intros Hfresh. apply map_eq. intros h.
      destruct (decide (h = next_stream w)) as [->|Hh].
      * rewrite lookup_delete_eq. symmetry. by apply Hfresh.
      * rewrite lookup_delete_ne by done. rewrite H7 by done. by rewrite lookup_insert_ne.
    + rewrite H6. clear. set_solver.
    + intros p Hp. apply H8.
      destruct (decide (p = c_str (entry_path toDestination entry))) as [->|Hp'].
      * rewrite lookup_insert_eq. by eexists.
      * by rewrite lookup_insert_ne.
  - intros _. rewrite H6. clear. set_solver.
Qed.

Lemma unzip_loop_frame events : ∀ success w b w',
  unzip_loop env toDestination events success w = Some (b, w') →
  walk_frame w w'
  ∧ (∀ e, e ∈ processed (abortUnzip w) events →
          entry_skipped toDestination e = false → entry_dir e ∈ dirs w').
Proof.
  induction events as [|ev rest IH]; intros success w b w'; simpl.
  - intros [= _ <-]. split; [apply walk_frame_refl|]. by intros e H%elem_of_nil.
  - destruct ev as [entry|].
    2: { intros H. apply IH in H as [H1 H2]. split; [|done].
         destruct H1. by constructor. }
    destruct (abortUnzip w) eqn:Hflag.
    { intros [= _ <-]. split; [by constructor|]. by intros e H%elem_of_nil. }
    destruct (extract_entry env toDestination entry success w) as [[s1 w1]|] eqn:E; [|done].
    intros H.
    destruct (extract_entry_spec env toDestination entry success w) as (w1' & E' & Hflag1 & _).
    rewrite E in E'. injection E' as _ <-.
    apply extract_entry_frame in E as [Hf1 Hd1].
    apply IH in H as [Hf2 Hd2]. rewrite Hflag1, Hflag in Hd2.
    split; [by eapply walk_frame_trans|].
    intros e [->|He]%elem_of_cons Hs.
    + apply (frame_dirs _ _ Hf2). by apply Hd1.
    + by apply Hd2.
Qed.

End WalkFrame.

Section WalkLeaves.

Context (env : Env) (zipFilePath toDestination : str) (w : World).

Lemma unzipFile_frame :
  ∃ b w', unzipFile env zipFilePath toDestination w = Some (b, w')
    ∧ walk_frame w w'
    ∧ (∀ events e, zzip_dir env (c_str zipFilePath) = Some events →
         e ∈ processed false events →
         entry_skipped toDestination e = false → entry_dir toDestination e ∈ dirs w').
Proof.
  unfold unzipFile.
  destruct (zzip_dir env (c_str zipFilePath)) as [events|] eqn:Ez.
  2: { eexists _, _. split; [done|]. split; [by constructor|done]. }
  destruct (unzip_loop_spec env toDestination events true (set_abortUnzip false w))
    as (b & w' & E & _).
  exists b, w'. split; [done|].
  apply unzip_loop_frame in E as [Hf Hd]. split.
  - destruct Hf. by constructor.
  - intros ? e [= <-]. apply Hd.
Qed.

(** X12. An extraction writes to the paths of the entries it extracts and, with
    the messages of what fails, to the log; to no other file: a file, other
    than the log, that no entry of the walk is written to is as it was. In
    particular the entries that are passed over (an empty name, a path that
    ends in three dots, a directory) and those that cannot be opened leave
    no file of their own behind. *)
Theorem unzipFile_writes_entry_paths_only p :
  p ≠ DebugFuncs.logFilePath →
  (∀ events, zzip_dir env (c_str zipFilePath) = Some events →
     path_untouched env toDestination p (processed false events)) →
  ∃ b w', unzipFile env zipFilePath toDestination w = Some (b, w')
        ∧ files w' !! p = files w !! p.
Proof.
  intros _ Hp. unfold unzipFile.
  destruct (zzip_dir env (c_str zipFilePath)) as [events|] eqn:Ez.
  2: { by eexists _, _. }
  destruct (unzip_loop_spec env toDestination events true (set_abortUnzip false w))
    as (b & w' & E & _ & _ & _ & Hframe & _).
  exists b, w'. split; [done|]. apply Hframe. by apply Hp.
Qed.

(** X13. An extraction removes nothing: every file that was there before is there
    afterwards (with new contents when an entry was written over it). *)
Theorem unzipFile_removes_no_file :
  ∃ b w', unzipFile env zipFilePath toDestination w = Some (b, w')
        ∧ ∀ p, is_Some (files w !! p) → is_Some (files w' !! p).
Proof.
  destruct unzipFile_frame as (b & w' & E & Hf & _).
  exists b, w'. split; [done|]. apply Hf.
Qed.

(** X14. An extraction closes every output file it opens: the streams that are
    open when it returns are those from before the call, whatever happened
    to the entries and whenever the walk was aborted. *)
Theorem unzipFile_closes_its_streams :
  handles_fresh w →
  ∃ b w', unzipFile env zipFilePath toDestination w = Some (b, w')
        ∧ streams w' = streams w ∧ handles_fresh w'.
Proof.
  intros [Hfs Hfc].
  destruct unzipFile_frame as (b & w' & E & Hf & _).
  exists b, w'. split; [done|]. destruct Hf as [_ Hi Hh _ Hn Hs _ _].
  specialize (Hs Hfs). split; [done|]. split.
  - intros h Hge. rewrite Hs. apply Hfs. lia.
  - intros h Hge. rewrite Hh. apply Hfc. lia.
Qed.


End WalkLeaves.

Lemma unzipFile_writes_entry_paths_only_witness :
  let entries := [mkEntry (lit "readme.txt") true [lit "hello"];
                  mkEntry (lit "bin/") true [];
                  mkEntry (lit "notes...") true [lit "x"]] in
  ∃ b w', unzipFile (env_of ([], 0) (Some (walk entries))) (lit "sdmc:/out/app.zip")
            (lit "sdmc:/out/app/") (with_file (lit "sdmc:/keep.txt") (lit "old")) = Some (b, w')
        ∧ files w' !! lit "sdmc:/out/app/notes..." = None.
Proof.
  intros entries.
  destruct (unzipFile_writes_entry_paths_only (env_of ([], 0) (Some (walk entries)))
              (lit "sdmc:/out/app.zip") (lit "sdmc:/out/app/")
              (with_file (lit "sdmc:/keep.txt") (lit "old")) (lit "sdmc:/out/app/notes..."))
    as (b & w' & H & Hf).
  - vm_compute. discriminate.
  - intros events [= <-].
    repeat constructor; intros [Hs Hw]; vm_compute in Hs |- *; discriminate.
  - exists b, w'. split; [exact H|]. rewrite Hf. vm_compute. reflexivity.
Defined.

Lemma unzipFile_closes_its_streams_witness :
  let entries := [mkEntry (lit "readme.txt") true [lit "hello"];
                  mkEntry (lit "broken.bin") false []] in
  ∃ b w', unzipFile (env_of ([], 0) (Some (walk entries))) (lit "sdmc:/out/app.zip")
            (lit "sdmc:/out/app/") (with_file (lit "sdmc:/keep.txt") (lit "old")) = Some (b, w')
        ∧ streams w' = ∅.
Proof.
  intros entries.
  destruct (unzipFile_closes_its_streams (env_of ([], 0) (Some (walk entries)))
              (lit "sdmc:/out/app.zip") (lit "sdmc:/out/app/")
              (with_file (lit "sdmc:/keep.txt") (lit "old"))
              (handles_fresh_with_file (lit "sdmc:/keep.txt") (lit "old")))
    as (b & w' & H & Hs & _).
  exists b, w'. split; [exact H|exact Hs].
Defined.

(** X16. The two operations keep out of each other's way: an extraction does not
    touch the abort flag of the transfer engine nor anything of libcurl, and
    a download does not touch the abort flag of the extractor. *)
Theorem operations_do_not_interfere :
  (∀ env zipFilePath toDestination w b w',
     unzipFile env zipFilePath toDestination w = Some (b, w') →
     abortDownload w' = abortDownload w ∧ curl_inits w' = curl_inits w
     ∧ curl_handles w' = curl_handles w ∧ curl_performs w' = curl_performs w)
  ∧ (∀ env url toDestination w b w',
       downloadFile env url toDestination w = Some (b, w') →
       abortUnzip w' = abortUnzip w).
Proof.
  split.
  - intros env zipFilePath toDestination w b w' H.
    destruct (unzipFile_frame env zipFilePath toDestination w) as (b0 & w0 & E & Hf & _).
    rewrite H in E. injection E as <- <-. by destruct Hf.
  - intros env url toDestination w b w' H.
    destruct (downloadFile_cases env url toDestination w (b, w') H)
      as [[_ E]|[(_ & _ & _ & E)|[_ E]]]; try by injection E as -> ->.
    change w' with (b, w').2. rewrite E.
    match goal with |- context [download_to env url ?d ?w0] =>
      destruct (download_to_resources env url d w0) as (_ & _ & Hu & _) end.
    by rewrite Hu.
Qed.

(** ** The archive extractor: which entries are passed over *)

Section Skipped.

Lemma last_collapse_pass n : ∀ s, (length s ≤ n)%nat → last (collapse_pass s) = last s.
Proof.
  induction n as [|n IH]; intros s Hn.
  - destruct s; [done|simpl in Hn; lia].
  - destruct s as [|a [|b r]]; [done..|].
    simpl in Hn. rewrite collapse_pass_cons2.
    destruct (Ascii.eqb a space && Ascii.eqb b space) eqn:E.
    + apply andb_true_iff in E as [_ Eb]. apply ascii_eqb_true in Eb as ->.
      destruct r as [|c r']; [done|].
      pose proof (collapse_pass_nonempty (c :: r')) as Hne.
      destruct (collapse_pass (c :: r')) as [|x l] eqn:Ec; [by exfalso; apply Hne|].
      rewrite <- Ec. change (last (a :: space :: c :: r')) with (last (c :: r')).
      rewrite <- (IH (c :: r')) by (simpl in *; lia). rewrite Ec. done.
    + pose proof (collapse_pass_nonempty (b :: r)) as Hne.
      destruct (collapse_pass (b :: r)) as [|x l] eqn:Ec; [by exfalso; apply Hne|].
      change (last (a :: x :: l)) with (last (x :: l)). rewrite <- Ec.
      rewrite IH by (simpl; lia). done.
Qed.

Lemma last_map_colon_to_space s :
  last (map colon_to_space s) = Some slash ↔ last s = Some slash.
Proof.
  induction s as [|a [|b r] IH]; [done| |].
  - simpl. unfold colon_to_space. destruct (Ascii.eqb a colon) eqn:E.
    + apply ascii_eqb_true in E as ->. split; intros [=].
    + done.
  - exact IH.
Qed.

Lemma last_replace_colons s : last (replace_colons s) = Some slash ↔ last s = Some slash.
Proof.
  destruct (decide (colon ∈ s)) as [H|H].
  - apply list_elem_of_split_l in H as (pre & post & -> & Hpre).
    rewrite replace_colons_spec by done.
    rewrite !last_app. destruct post as [|c r].
    + simpl. split; intros [=].
    + change (last (colon :: map colon_to_space (c :: r)))
        with (last (map colon_to_space (c :: r))).
      change (last (colon :: c :: r)) with (last (c :: r)).
      pose proof (last_map_colon_to_space (c :: r)) as Hm.
      destruct (last (map colon_to_space (c :: r))) as [x|] eqn:E1;
        destruct (last (c :: r)) as [y|] eqn:E2; try done.
      * by apply last_None in E2.
      * by apply last_None in E1.
  - by rewrite replace_colons_none.
Qed.

Lemma empty_name_c_str d_name : empty_name d_name = true ↔ c_str d_name = [].
Proof.
  destruct d_name as [|c r]; simpl; [done|].
  destruct (Ascii.eqb c nul); [done|]. split; intros [=].
Qed.

Lemma ends_with_dots_iff p : ends_with_dots p = true ↔ ∃ pre, p = pre ++ lit "...".
Proof.
  unfold ends_with_dots, str_eqb, substr_from.
  rewrite andb_true_iff, !bool_decide_eq_true. split.
  - intros [Hlen E]. exists (take (length p - 3) p).
    rewrite <- E. by rewrite take_drop.
  - intros [pre ->]. rewrite length_app. simpl. split; [lia|].
    replace (length pre + 3 - 3)%nat with (length pre) by lia.
    by rewrite drop_app_length.
Qed.

(** X17. Which entries the walk passes over is decided by their names as they
    are in the archive: an entry is passed over exactly when its name is
    empty, when the destination followed by the name ends in three dots, or
    when the name ends in a slash. The sanitization of the path changes
    nothing about it; a name that begins with a dot is not passed over. *)
Theorem entry_skipped_by_name toDestination entry :
  entry_skipped toDestination entry = true
  ↔ entry_name entry = []
    ∨ (∃ pre, toDestination ++ entry_name entry = pre ++ lit "...")
    ∨ back (entry_name entry) = Some slash.
Proof.
  unfold entry_skipped. rewrite !orb_true_iff, bool_decide_eq_true.
  rewrite empty_name_c_str, ends_with_dots_iff. fold (entry_name entry).
  assert (back (entry_path toDestination entry) = Some slash
          ↔ back (toDestination ++ entry_name entry) = Some slash) as Hback.
  { unfold entry_path, sanitized_path, back. rewrite collapse_spaces_pass.
    rewrite (last_collapse_pass (length (replace_colons (toDestination ++ entry_name entry))))
      by done.
    apply last_replace_colons. }
  rewrite Hback. unfold back. rewrite last_app.
  destruct (entry_name entry) as [|c r] eqn:En.
  - split; [|tauto]. intros _. by left.
  - destruct (last (c :: r)) as [x|] eqn:El; [|by apply last_None in El].
    tauto.
Qed.

End Skipped.

(** ** Path sanitization: colons *)

Section Colons.

(** How many colons a path has. *)
Definition colons (s : str) : nat := length (filter (λ c, c = colon) s).

Lemma colons_app a b : colons (a ++ b) = (colons a + colons b)%nat.
Proof. unfold colons. by rewrite filter_app, length_app. Qed.

Lemma colons_cons c s :
  colons (c :: s) = ((if decide (c = colon) then 1 else 0) + colons s)%nat.
Proof. unfold colons. rewrite filter_cons. by case_decide. Qed.

Lemma colons_0 s : colons s = 0%nat ↔ colon ∉ s.
Proof.
  induction s as [|c r IH].
  - split; [intros _; apply not_elem_of_nil|done].
  - rewrite colons_cons, not_elem_of_cons. case_decide as E.
    + split; [lia|]. intros [H _]. congruence.
    + simpl. rewrite IH. split; [|tauto]. intros H. split; [congruence|done].
Qed.

Lemma colon_to_space_no_colon s : colon ∉ map colon_to_space s.
Proof.
  induction s as [|c r IH]; simpl; [apply not_elem_of_nil|].
  apply not_elem_of_cons. split; [|done]. unfold colon_to_space.
  destruct (Ascii.eqb c colon) eqn:E; [done|]. apply ascii_eqb_false in E. congruence.
Qed.

Lemma find_char_first pre post c :
  c ∉ pre → find_char (pre ++ c :: post) c 0 = Some (length pre).
Proof.
  intros Hpre. unfold find_char. rewrite drop_0.
  induction pre as [|x r IH]; simpl.
  - by rewrite Ascii.eqb_refl.
  - apply not_elem_of_cons in Hpre as [Hx Hr].
    destruct (Ascii.eqb x c) eqn:E.
    + apply ascii_eqb_true in E. congruence.
    + specialize (IH Hr). simpl in IH.
      destruct (index_of c (r ++ c :: post)); simpl in *; congruence.
Qed.

(** X18. Lines 257-264 leave one colon at most, the first one of the path, where
    it was; the path keeps its length, every character that is not a colon
    stays what it is, every colon that goes becomes a space, and a second
    application changes nothing. *)
Theorem replace_colons_leaves_first_colon s :
  length (replace_colons s) = length s
  ∧ colons (replace_colons s) = (1 `min` colons s)%nat
  ∧ find_char (replace_colons s) colon 0 = find_char s colon 0
  ∧ (∀ i, replace_colons s !! i = s !! i
          ∨ (s !! i = Some colon ∧ replace_colons s !! i = Some space))
  ∧ replace_colons (replace_colons s) = replace_colons s.
Proof.
  split; [apply replace_colons_length|].
  destruct (decide (colon ∈ s)) as [H|H].
  - apply list_elem_of_split_l in H as (pre & post & -> & Hpre).
    rewrite replace_colons_spec by done.
    pose proof (colon_to_space_no_colon post) as Hpost.
    split; [|split; [|split]].
    + rewrite !colons_app, !colons_cons, !decide_True by done.
      apply colons_0 in Hpre, Hpost. rewrite Hpre, Hpost. lia.
    + by rewrite !find_char_first.
    + intros i. destruct (decide (i < length pre)%nat) as [Hi|Hi].
      { left. by rewrite !lookup_app_l. }
      rewrite !lookup_app_r by lia.
      destruct (i - length pre)%nat as [|j]; simpl; [by left|].
      rewrite list_lookup_fmap. destruct (post !! j) as [c|]; simpl; [|by left].
      unfold colon_to_space. destruct (Ascii.eqb c colon) eqn:E; [|by left].
      apply ascii_eqb_true in E as ->. by right.
    + rewrite replace_colons_spec by done.
      by rewrite map_colon_to_space_id.
  - rewrite !replace_colons_none by done.
    split; [|split; [done|split; [by left|done]]].
    apply colons_0 in H. rewrite H. done.
Qed.

End Colons.

(** ** Path sanitization: runs of spaces *)

Section Runs.

(** The pass starts afresh behind a character that is not a space. *)
Lemma collapse_pass_app n : ∀ pre rest,
  (length pre ≤ n)%nat → last pre ≠ Some space →
  collapse_pass (pre ++ rest) = collapse_pass pre ++ collapse_pass rest.
Proof.
  induction n as [|n IH]; intros pre rest Hn Hlast.
  - destruct pre; [done|simpl in Hn; lia].
  - destruct pre as [|a [|b r]]; [done| |].
    + simpl in Hlast. destruct rest as [|c rest']; [done|].
      change (collapse_pass ([a] ++ c :: rest'))
        with (if Ascii.eqb a space && Ascii.eqb c space
              then space :: collapse_pass rest' else a :: collapse_pass (c :: rest')).
      destruct (Ascii.eqb a space) eqn:E; [|done].
      apply ascii_eqb_true in E. congruence.
    + change ((a :: b :: r) ++ rest) with (a :: b :: (r ++ rest)).
      rewrite !collapse_pass_cons2.
      destruct (Ascii.eqb a space && Ascii.eqb b space).
      * simpl. f_equal. apply IH; [simpl in Hn; lia|].
        destruct r; [done|]. exact Hlast.
      * change (b :: r ++ rest) with ((b :: r) ++ rest). simpl app at 2. f_equal.
        apply IH; [simpl in *; lia|]. exact Hlast.
Qed.

(** A run of [n] spaces in front of something else comes out with
    [(n + 1) / 2] of them. *)
Lemma collapse_pass_run k : ∀ n post,
  (n ≤ k)%nat → head post ≠ Some space →
  collapse_pass (replicate n space ++ post)
  = replicate ((n + 1) / 2) space ++ collapse_pass post.
Proof.
  induction k as [|k IH]; intros n post Hn Hhead.
  - by replace n with 0%nat by lia.
  - destruct n as [|[|n]]; [done| |].
    + change ((1 + 1) / 2)%nat with 1%nat. simpl replicate. simpl app.
      destruct post as [|c rest]; [done|].
      rewrite collapse_pass_cons2.
      destruct (Ascii.eqb c space) eqn:E.
      * apply ascii_eqb_true in E as ->. done.
      * by rewrite andb_false_r.
    + replace ((S (S n) + 1) / 2)%nat with (S ((n + 1) / 2)).
      2: { replace (S (S n) + 1)%nat with ((n + 1) + 1 * 2)%nat by lia.
           rewrite Nat.div_add by lia. lia. }
      simpl replicate. simpl app. rewrite collapse_pass_cons2. simpl.
      f_equal. apply IH; [lia|done].
Qed.

(** X19. Lines 267-271 on a run of spaces: a run of [n] spaces that stands
    between two other characters, at the start or at the end of the path,
    comes out as a run of [(n + 1) / 2] spaces, and not as a single one; the
    rest of the path is treated on its own. *)
Theorem collapse_spaces_halves_runs pre n post :
  last pre ≠ Some space → head post ≠ Some space →
  collapse_spaces (pre ++ replicate n space ++ post)
  = collapse_spaces pre ++ replicate ((n + 1) / 2) space ++ collapse_spaces post.
Proof.
  intros Hpre Hpost. rewrite !collapse_spaces_pass.
  rewrite (collapse_pass_app (length pre)) by done.
  by rewrite (collapse_pass_run n).
Qed.

Lemma collapse_spaces_halves_runs_witness :
  collapse_spaces (lit "a" ++ replicate 5 space ++ lit "b") = lit "a   b".
Proof.
  rewrite (collapse_spaces_halves_runs (lit "a") 5 (lit "b")).
  - vm_compute. reflexivity.
  - vm_compute. discriminate.
  - vm_compute. discriminate.
Defined.

Lemma collapse_pass_length n : ∀ s,
  (length s ≤ n)%nat →
  (length (collapse_pass s) ≤ length s)%nat
  ∧ (has_double_space s → (length (collapse_pass s) < length s)%nat)
  ∧ (¬ has_double_space s → collapse_pass s = s)
  ∧ filter (λ c, c ≠ space) (collapse_pass s) = filter (λ c, c ≠ space) s.
Proof.
  induction n as [|n IH]; intros s Hn.
  - destruct s; [|simpl in Hn; lia]. simpl.
    split; [done|]. split; [|done]. intros [i [H _]]. by destruct i.
  - destruct s as [|a [|b r]].
    + simpl. split; [done|]. split; [|done]. intros [i [H _]]. by destruct i.
    + simpl. split; [done|]. split; [|done]. intros [i [_ H]]. by destruct i.
    + simpl in Hn. rewrite collapse_pass_cons2.
      destruct (Ascii.eqb a space && Ascii.eqb b space) eqn:E.
      * apply andb_true_iff in E as [Ea Eb].
        apply ascii_eqb_true in Ea, Eb. subst a b.
        destruct (IH r) as (H1 & H2 & H3 & H4); [lia|].
        simpl. split; [lia|]. split; [intros _; lia|]. split.
        -- intros Hno. exfalso. apply Hno. by exists 0%nat.
        -- done.
      * destruct (IH (b :: r)) as (H1 & H2 & H3 & H4); [simpl; lia|].
        simpl length in *. split; [lia|]. split; [|split].
        -- intros [[Ha Hb]|Hd]%has_double_space_cons.
           ++ simpl in Hb. injection Hb as ->. subst a. done.
           ++ specialize (H2 Hd). lia.
        -- intros Hno. f_equal. apply H3. intros Hd. apply Hno.
           apply has_double_space_cons. by right.
        -- rewrite (filter_cons _ a), (filter_cons _ a (b :: r)), H4. done.
Qed.

(** X20. The pass touches spaces only: the other characters come out as they
    went in, in their order; the path does not get longer; and it comes out
    as it went in exactly when it has no two spaces in a row. *)
Theorem collapse_spaces_touches_spaces_only s :
  filter (λ c, c ≠ space) (collapse_spaces s) = filter (λ c, c ≠ space) s
  ∧ (length (collapse_spaces s) ≤ length s)%nat
  ∧ (collapse_spaces s = s ↔ ¬ has_double_space s).
Proof.
  rewrite collapse_spaces_pass.
  destruct (collapse_pass_length (length s) s) as (H1 & H2 & H3 & H4); [done|].
  split; [done|]. split; [done|]. split; [|done].
  intros E Hd. apply H2 in Hd. rewrite E in Hd. lia.
Qed.

(** X21. The path an entry is written to is the destination followed by the
    entry's name, as they are, exactly when the two together have one colon
    at most and no two spaces in a row. *)
Theorem sanitized_path_unchanged_iff toDestination fileName :
  sanitized_path toDestination fileName = toDestination ++ fileName
  ↔ (colons (toDestination ++ fileName) ≤ 1)%nat
    ∧ ¬ has_double_space (toDestination ++ fileName).
Proof.
  unfold sanitized_path. generalize (toDestination ++ fileName). intros s.
  rewrite collapse_spaces_pass.
  destruct (collapse_pass_length (length (replace_colons s)) (replace_colons s))
    as (H1 & H2 & H3 & _); [done|].
  assert (replace_colons s = s ↔ (colons s ≤ 1)%nat) as Hrc.
  { destruct (decide (colon ∈ s)) as [H|H].
    - apply list_elem_of_split_l in H as (pre & post & -> & Hpre).
      rewrite replace_colons_spec by done.
      rewrite colons_app, colons_cons, decide_True by done.
      apply colons_0 in Hpre. rewrite Hpre. split.
      + intros E. apply app_inv_head in E. injection E as E.
        pose proof (colon_to_space_no_colon post) as Hpost. rewrite E in Hpost.
        apply colons_0 in Hpost. lia.
      + intros Hle. assert (colons post = 0%nat) as Hpost%colons_0 by lia.
        by rewrite map_colon_to_space_id.
    - rewrite replace_colons_none by done. apply colons_0 in H. rewrite H.
      split; [lia|done]. }
  split.
  - intros E.
    assert (¬ has_double_space (replace_colons s)) as Hno.
    { intros Hd. apply H2 in Hd. rewrite E, replace_colons_length in Hd. lia. }
    rewrite H3 in E by done. rewrite E in Hno. split; [|done]. by apply Hrc.
  - intros [Hc Hd]. apply Hrc in Hc. rewrite Hc in *. by apply H3.
Qed.

End Runs.

(** ** The log sink: the line of a message and the growth of the log *)

Section LogSink.

Import DebugFuncs.

(** A carriage return or a line feed. *)
Definition newline (c : ascii) : Prop := c = CR ∨ c = LF.

Lemma existsb_newline c : existsb (Ascii.eqb c) [CR; LF] = true ↔ newline c.
Proof.
  simpl. rewrite orb_false_r, orb_true_iff, !ascii_eqb_true. done.
Qed.

Lemma find_last_not_of_None s :
  find_last_not_of s [CR; LF] = None ↔ Forall newline s.
Proof.
  induction s as [|x r IH]; cbn [find_last_not_of].
  - split; [by constructor|done].
  - rewrite Forall_cons. destruct (find_last_not_of r [CR; LF]) as [i|].
    + split; [done|]. intros [_ H]. by apply IH in H.
    + destruct (existsb (Ascii.eqb x) [CR; LF]) eqn:E.
      * apply existsb_newline in E. split; [|done]. intros _. split; [done|]. by apply IH.
      * split; [done|]. intros [H _]. apply existsb_newline in H. congruence.
Qed.

(** The last character that is no newline is the one in front of a tail of
    newlines. *)
Lemma find_last_not_of_app body c tail :
  ¬ newline c → Forall newline tail →
  find_last_not_of (body ++ c :: tail) [CR; LF] = Some (length body).
Proof.
  intros Hc Htail. induction body as [|x r IH]; simpl app; cbn [find_last_not_of].
  - apply find_last_not_of_None in Htail. rewrite Htail.
    destruct (existsb (Ascii.eqb c) [CR; LF]) eqn:E; [|done].
    by apply existsb_newline in E.
  - by rewrite IH.
Qed.

(** X22. The line written for a message is the time between brackets, a space,
    the message and one line feed. The time is the text of [std::asctime]
    without the newlines it ends with; a text that has nothing but newlines
    is taken as it is, newlines included. The message goes in unchanged,
    whatever it contains. *)
Theorem log_entry_format message :
  (∀ body c tail, ¬ newline c → Forall newline tail →
     log_entry (body ++ c :: tail) message
     = lit "[" ++ body ++ [c] ++ lit "] " ++ message ++ [LF])
  ∧ (∀ asctime, Forall newline asctime →
       log_entry asctime message = lit "[" ++ asctime ++ lit "] " ++ message ++ [LF]).
Proof.
  split.
  - intros body c tail Hc Htail. unfold log_entry.
    rewrite find_last_not_of_app by done. unfold erase.
    assert (take (length body + 1) (body ++ c :: tail) = body ++ [c]) as ->.
    { rewrite (cons_middle c body tail), app_assoc.
      apply take_app_length'. rewrite length_app. simpl. lia. }
    by rewrite <- !app_assoc.
  - intros asctime Hall. unfold log_entry.
    apply find_last_not_of_None in Hall. by rewrite Hall.
Qed.

(** One call of [logMessage]: the text of the time, whether the log file
    opens, and the message. *)
Record log_call := mkLogCall {
  call_asctime : str;
  call_is_open : bool;
  call_message : str
}.

(** A sequence of calls, oldest first. *)
Definition log_all (calls : list log_call) (w : World) : World :=
  foldl (λ w c, logMessage (call_asctime c) (call_is_open c) (call_message c) w) w calls.

(** What the log file holds; nothing when it is not there. *)
Definition log_contents (w : World) : str := default [] (files w !! logFilePath).

(** The lines of the calls for which the log file opened. *)
Definition lines_written (calls : list log_call) : str :=
  concat ((λ c, log_entry (call_asctime c) (call_message c))
            <$> filter (λ c, call_is_open c = true) calls).

(** X23. The log only grows: after any sequence of calls it holds what it held
    before, followed by the lines of the calls for which it could be opened,
    in the order of the calls; a call for which it could not be opened
    leaves no trace. No other file changes, and the file is there as soon as
    one call has opened it. *)
Theorem logMessage_appends calls : ∀ w,
  log_contents (log_all calls w) = log_contents w ++ lines_written calls
  ∧ (∀ p, p ≠ logFilePath → files (log_all calls w) !! p = files w !! p)
  ∧ (Exists (λ c, call_is_open c = true) calls →
     is_Some (files (log_all calls w) !! logFilePath))
  ∧ (Forall (λ c, call_is_open c = false) calls → log_all calls w = w).
Proof.
  induction calls as [|c rest IH]; intros w.
  - unfold lines_written. simpl. rewrite app_nil_r.
    split; [done|]. split; [done|]. split; [|done]. by intros H%Exists_nil.
  - change (log_all (c :: rest) w)
      with (log_all rest (logMessage (call_asctime c) (call_is_open c) (call_message c) w)).
    destruct (IH (logMessage (call_asctime c) (call_is_open c) (call_message c) w))
      as (H1 & H2 & H3 & H4).
    unfold lines_written. rewrite filter_cons.
    unfold logMessage in *. destruct (call_is_open c) eqn:Eo.
    + rewrite decide_True by done. rewrite fmap_cons. simpl concat.
      split; [|split; [|split]].
      * rewrite H1. unfold log_contents at 1. simpl. rewrite lookup_insert_eq. simpl.
        unfold log_contents, lines_written. by rewrite <- app_assoc.
      * intros p Hp. rewrite H2 by done. simpl. by rewrite lookup_insert_ne.
      * intros _. unfold log_contents in H1.
        destruct (files (log_all rest _) !! logFilePath) eqn:E; [by eexists|].
        simpl in H1. rewrite lookup_insert_eq in H1. simpl in H1.
        symmetry in H1. apply app_eq_nil in H1 as [H1 _].
        apply app_eq_nil in H1 as [_ H1]. done.
      * intros [H _]%Forall_cons. congruence.
    + rewrite decide_False by done.
      split; [done|]. split; [done|]. split.
      * intros [H|H]%Exists_cons; [congruence|]. by apply H3.
      * intros [_ H]%Forall_cons. by apply H4.
Qed.

End LogSink.
